(** * simplemma: token samplers and the dictionary factory

    A shallow embedding of [simplemma/token_sampler.py] and
    [simplemma/dictionary_factory.py], with the Python run-time notions they
    rely on (exceptions, [collections.Counter], [functools.lru_cache],
    binary64 floats) written out as Rocq functions. *)

Set Warnings "-notation-overridden,-rewrite-rw,-notation-for-abbreviation".
From HB Require Import structures.
From Stdlib Require Import ZArith Lia SpecFloat Ascii String.
From mathcomp Require Import boot.

Set Implicit Arguments.
Unset Strict Implicit.
Unset Printing Implicit Defensive.

(** ** Exceptions and results *)

(** The exceptions the two modules can raise or let through;
    [OtherError] is any other exception class, by name. *)
Inductive exn :=
| TypeError | IndexError | FileNotFoundError | LZMAError
| UnpicklingError | AssertionError | EOFError
| OtherError of String.string.

(** A Python call either returns a value or raises. *)
Inductive outcome (A : Type) :=
| Ok of A
| Raise of exn.

Arguments Raise {A} e.

Definition bind {A B : Type} (m : outcome A) (k : A -> outcome B) : outcome B :=
  match m with
  | Ok a => k a
  | Raise e => Raise e
  end.

Notation "'let?' x := m 'in' k" := (bind m (fun x => k))
  (at level 10, x name, m at level 100, k at level 200).

Definition is_ok {A : Type} (m : outcome A) : bool :=
  if m is Ok _ then true else false.

(** ** Numbers

    [capitalized_threshold] is annotated [float], and
    [RelaxedMostCommonTokenSampler] passes the [int] literal [0] for it, so a
    threshold is a Python number of either kind.  Floats are IEEE 754
    binary64 values ([spec_float] with 53 bits of precision). *)

Inductive pynum :=
| Int of Z
| Float of spec_float.

Definition float_prec : Z := 53.
Definition float_emax : Z := 1024.

(** [x * y] on floats: the correctly rounded product. *)
Definition float_mul (x y : spec_float) : spec_float :=
  SFmul float_prec float_emax x y.

(** Conversion of an [int] operand to [float] (round to nearest even).  The
    integers converted here are lengths of containers, far below the
    overflow threshold of the conversion. *)
Definition float_of_int (z : Z) : spec_float :=
  binary_normalize float_prec float_emax z 0 false.

(** [k < x] for an [int] k and a [float] x.  Python compares the two
    exactly, without rounding k. *)
Definition int_lt_float (k : Z) (x : spec_float) : bool :=
  match x with
  | S754_nan => false
  | S754_infinity s => ~~ s
  | S754_zero _ => (k <? 0)%Z
  | S754_finite s m e =>
      let v := (if s then Z.neg m else Z.pos m) in
      if (0 <=? e)%Z then (k <? v * 2 ^ e)%Z
      else (k * 2 ^ (- e) <? v)%Z
  end.

(** [t > 0]. *)
Definition num_gt_zero (t : pynum) : bool :=
  match t with
  | Int z => (0 <? z)%Z
  | Float x => int_lt_float 0 x
  end.

(** [k < t * n] for two lengths [k] and [n]: integer arithmetic when [t] is
    an [int], a float product compared with the integer [k] otherwise. *)
Definition len_lt_times (k : nat) (t : pynum) (n : nat) : bool :=
  match t with
  | Int z => (Z.of_nat k <? z * Z.of_nat n)%Z
  | Float x =>
      int_lt_float (Z.of_nat k) (float_mul x (float_of_int (Z.of_nat n)))
  end.

(** The literals [0.8] and [0.1] as binary64 values. *)
Definition float_0_8 : spec_float := S754_finite false 7205759403792794 (-53).
Definition float_0_1 : spec_float := S754_finite false 7205759403792794 (-56).

(** ** Token samplers ([token_sampler.py]) *)

Section TokenSampler.

(** A [str] is a sequence of characters; [isupper c] is [str.isupper] on the
    one-character string [c]. *)
Variable char : eqType.
Variable isupper : char -> bool.

Definition token : Type := seq char.

(** *** [collections.Counter]

    A [Counter] is a [dict]: it keeps its keys in insertion order, which
    [most_common] relies on for ties. *)
Definition counter : Type := seq (token * nat).

Definition keys (c : counter) : seq token := [seq it.1 | it <- c].

(** [c[x] += 1], inserting [x] at the end when it is new. *)
Fixpoint counter_incr (c : counter) (x : token) : counter :=
  match c with
  | [::] => [:: (x, 1)]
  | (y, n) :: c' =>
      if y == x then (y, n.+1) :: c' else (y, n) :: counter_incr c' x
  end.

(** [Counter(tokens)]. *)
Definition Counter (tokens : seq token) : counter :=
  foldl counter_incr [::] tokens.

(** [c[x]]: a missing key counts 0. *)
Fixpoint counter_get (c : counter) (x : token) : nat :=
  match c with
  | [::] => 0
  | (y, n) :: c' => if y == x then n else counter_get c' x
  end.

(** [del c[x]].  [Counter.__delitem__] does nothing for a missing key. *)
Fixpoint counter_del (c : counter) (x : token) : counter :=
  match c with
  | [::] => [::]
  | (y, n) :: c' => if y == x then c' else (y, n) :: counter_del c' x
  end.

(** [sorted(c.items(), key=itemgetter(1), reverse=True)].  Python's sort is
    stable, also under [reverse=True]; [sort] is a stable merge sort, and a
    stable sort has only one possible output. *)
Definition by_count_desc : rel (token * nat) := fun a b => b.2 <= a.2.

Definition sorted_items (c : counter) : seq (token * nat) :=
  sort by_count_desc c.

(** [c.most_common(n)] is [heapq.nlargest(n, c.items(), key=itemgetter(1))]:
    the first [n] items of [sorted_items c], and no item when [n <= 0]. *)
Definition most_common (n : Z) (c : counter) : seq (token * nat) :=
  take (Z.to_nat n) (sorted_items c).

(** *** [MostCommonTokenSampler.sample_tokens] *)

(** [token[0].isupper()]: indexing an empty string raises [IndexError]. *)
Definition starts_upper (t : token) : outcome bool :=
  match t with
  | [::] => Raise IndexError
  | ch :: _ => Ok (isupper ch)
  end.

(** [[token for token in counter if token[0].isupper()]]. *)
Fixpoint capitalized (ks : seq token) : outcome (seq token) :=
  match ks with
  | [::] => Ok [::]
  | t :: ks' =>
      let? b := starts_upper t in
      let? ds := capitalized ks' in
      Ok (if b then t :: ds else ds)
  end.

(** Lines 66-70: the counter after the capitalisation filter. *)
Definition drop_capitalized (capitalized_threshold : pynum) (c : counter)
  : outcome counter :=
  if num_gt_zero capitalized_threshold then
    let? deletions := capitalized (keys c) in
    if len_lt_times (size deletions) capitalized_threshold (size c)
    then Ok (foldl counter_del c deletions)
    else Ok c
  else Ok c.

Definition sample_tokens (sample_size : Z) (capitalized_threshold : pynum)
    (tokens : seq token) : outcome (seq token) :=
  let? c := drop_capitalized capitalized_threshold (Counter tokens) in
  Ok [seq it.1 | it <- most_common sample_size c].

(** *** The class hierarchy

    [Tokenizer] is the protocol of [tokenizer.py]: one method,
    [split_text].  A sampler object carries its tokenizer slot and the
    [sample_tokens] its class defines, which is abstract in
    [BaseTokenSampler]; [sample_text] is the one method [BaseTokenSampler]
    implements, and the subclasses inherit it. *)

Definition text : Type := seq char.

Record Tokenizer := { split_text : text -> seq token }.

Record BaseTokenSampler := {
  _tokenizer : Tokenizer;
  sample_tokens_method : seq token -> outcome (seq token)
}.

Definition sample_text (self : BaseTokenSampler) (txt : text)
  : outcome (seq token) :=
  sample_tokens_method self (split_text (_tokenizer self) txt).

(** [MostCommonTokenSampler(tokenizer, sample_size, capitalized_threshold)]. *)
Definition MostCommonTokenSampler (tokenizer : Tokenizer) (sample_size : Z)
    (capitalized_threshold : pynum) : BaseTokenSampler :=
  {| _tokenizer := tokenizer;
     sample_tokens_method := sample_tokens sample_size capitalized_threshold |}.

(** [RelaxedMostCommonTokenSampler.__init__] only calls
    [super().__init__] with its own arguments. *)
Definition RelaxedMostCommonTokenSampler (tokenizer : Tokenizer)
    (sample_size : Z) (capitalized_threshold : pynum) : BaseTokenSampler :=
  MostCommonTokenSampler tokenizer sample_size capitalized_threshold.

(** The default arguments of the two constructors. *)
Definition default_sample_size : Z := 100.
Definition default_capitalized_threshold : pynum := Float float_0_8.
Definition relaxed_default_sample_size : Z := 1000.
Definition relaxed_default_capitalized_threshold : pynum := Int 0.

End TokenSampler.

(** ** The dictionary factory ([dictionary_factory.py]) *)

HB.instance Definition _ := hasDecEq.Build String.string String.eqb_spec.

(** A language code, and a dictionary from surface forms to lemmas. *)
Definition lang : Type := String.string.
Definition dictionary : Type := seq (String.string * String.string).

(** The arguments [get_dictionaries] can be called with. *)
Inductive pyval :=
| PyNone
| PyInt of Z
| PyStr of String.string
| PyTuple of seq String.string
| PyList of seq String.string.

(** [a == b].  Values of different types are unequal; in particular a tuple
    never equals a list, whatever they hold. *)
Definition py_eq (a b : pyval) : bool :=
  match a, b with
  | PyNone, PyNone => true
  | PyInt x, PyInt y => (x =? y)%Z
  | PyStr s, PyStr t => s == t
  | PyTuple s, PyTuple t => s == t
  | PyList s, PyList t => s == t
  | _, _ => false
  end.

(** [sorted] on strings (code point order). *)
Definition py_sorted (s : seq String.string) : seq String.string :=
  sort String.leb s.

(** [isinstance(v, str)] and [isinstance(v, tuple)]. *)
Definition isinstance_str (v : pyval) : bool :=
  if v is PyStr _ then true else false.

Definition isinstance_tuple (v : pyval) : bool :=
  if v is PyTuple _ then true else false.

Definition _control_lang (lang : pyval) : outcome (seq String.string) :=
  let lang := if lang is PyStr s then PyTuple [:: s] else lang in
  if lang is PyTuple t then Ok t else Raise TypeError.

(** A record of the module's logger. *)
Inductive log_record :=
| LogError of lang   (* "language not supported: %s" *)
| LogDebug of lang.  (* "loading %s" *)

(** A [dict] object holding the working set: its identity and its items in
    insertion order. *)
Record dict_obj := DictObj {
  obj_id : nat;
  items : seq (lang * dictionary)
}.

Definition dict_keys (d : seq (lang * dictionary)) : seq lang :=
  [seq it.1 | it <- d].

(** [d[k] = v]: replaces the value of an existing key in place, appends a
    new key. *)
Fixpoint dict_set (d : seq (lang * dictionary)) (k : lang) (v : dictionary)
  : seq (lang * dictionary) :=
  match d with
  | [::] => [:: (k, v)]
  | (k', v') :: d' =>
      if k' == k then (k', v) :: d' else (k', v') :: dict_set d' k v
  end.

(** [d.pop(k)] for a key [k] of [d]. *)
Definition dict_pop (d : seq (lang * dictionary)) (k : lang)
  : seq (lang * dictionary) :=
  [seq it <- d | it.1 != k].

Fixpoint dict_get (d : seq (lang * dictionary)) (k : lang)
  : option dictionary :=
  match d with
  | [::] => None
  | (k', v) :: d' => if k' == k then Some v else dict_get d' k
  end.

(** *** [functools.lru_cache]

    The state of the wrapper [lru_cache(maxsize)(f)].  [cache_entries] runs
    from the least recently used entry to the most recently used one, as the
    wrapper's linked list does from its root.  [calls] is not part of the
    wrapper: it records the keys the wrapper was called with, latest first,
    so that recency can be stated. *)
Record lru_cache := LruCache {
  maxsize : option nat;
  cache_entries : seq (lang * dictionary);
  hits : nat;
  misses : nat;
  calls : seq lang
}.

(** [lru_cache(maxsize=n)]: [None] is unbounded, a negative size counts
    as 0. *)
Definition new_lru_cache (n : option Z) : lru_cache :=
  {| maxsize := omap (fun z => if (z <? 0)%Z then 0 else Z.to_nat z) n;
     cache_entries := [::]; hits := 0; misses := 0; calls := [::] |}.

Section DictionaryFactory.

(** *** [_load_dictionary_from_disk]

    The three library calls of lines 28-30 are outside the module and are
    taken as they behave on the installation: [package_path] is
    [str(Path(__file__).parent / filename)], which normalises the name;
    [lzma_open] is [lzma.open(filepath, "rb")], which returns a file open
    for reading or raises ([FileNotFoundError] for a missing file, another
    [OSError] for a directory, ...); [pickle_load] is [pickle.load] on that
    file, which decompresses as it reads, only as far as the pickle goes,
    and returns the object or raises ([LZMAError], [EOFError],
    [UnpicklingError], ...).  [LANGLIST] comes from [constants.py]. *)
Definition bytes : Type := seq Byte.byte.

(** An [LZMAFile] open for reading: the compressed content it reads. *)
Definition lzma_file : Type := bytes.

Inductive pickled :=
| PickledDict of dictionary
| PickledOther.

Variable package_path : String.string -> String.string.
Variable lzma_open : String.string -> outcome lzma_file.
Variable pickle_load : lzma_file -> outcome pickled.
Variable LANGLIST : seq lang.

(** [f"data/{langcode}.plzma"]. *)
Definition dictionary_filename (langcode : lang) : String.string :=
  String.append "data/"%string (String.append langcode ".plzma"%string).

(** Leaving the [with] block closes the file, which was only read, and lets
    an exception of the block through.  The [assert] of line 31 is run (the
    interpreter is not started with [-O]). *)
Definition _load_dictionary_from_disk (langcode : lang) : outcome dictionary :=
  let filename := dictionary_filename langcode in
  let filepath := package_path filename in
  let? filehandle := lzma_open filepath in
  let? pickled_dict := pickle_load filehandle in
  if pickled_dict is PickledDict d then Ok d else Raise AssertionError.

(** A call of the wrapped loader.  With [maxsize = 0] nothing is cached;
    with [maxsize = None] entries are kept without order or limit;
    otherwise a hit moves the entry to the most recent end and a miss on a
    full cache drops the least recent entry.  An exception of the loader
    passes through and nothing is stored. *)
Definition lru_call (c : lru_cache) (key : lang)
  : outcome dictionary * lru_cache :=
  let called := key :: calls c in
  let miss es r :=
    (r, LruCache (maxsize c) es (hits c) (misses c).+1 called) in
  match maxsize c with
  | Some 0 => miss (cache_entries c) (_load_dictionary_from_disk key)
  | None =>
      if dict_get (cache_entries c) key is Some d then
        (Ok d, LruCache (maxsize c) (cache_entries c) (hits c).+1 (misses c)
                 called)
      else
        match _load_dictionary_from_disk key with
        | Ok d => miss (rcons (cache_entries c) (key, d)) (Ok d)
        | Raise e => miss (cache_entries c) (Raise e)
        end
  | Some n =>
      if dict_get (cache_entries c) key is Some d then
        (Ok d, LruCache (maxsize c)
                 (rcons (dict_pop (cache_entries c) key) (key, d))
                 (hits c).+1 (misses c) called)
      else
        match _load_dictionary_from_disk key with
        | Ok d =>
            if size (cache_entries c) < n
            then miss (rcons (cache_entries c) (key, d)) (Ok d)
            else miss (rcons (behead (cache_entries c)) (key, d)) (Ok d)
        | Raise e => miss (cache_entries c) (Raise e)
        end
  end.

(** *** [DictionaryFactory]

    [_data] and [_loader] are the two attributes ([_loader] is the state of
    [self._load_dictionary_from_disk]); [next_id] numbers the [dict]
    objects created so far and [logged] is the logger's output. *)
Record factory := Factory {
  _data : dict_obj;
  _loader : lru_cache;
  next_id : nat;
  logged : seq log_record
}.

(** [DictionaryFactory(cache_max_size)]; the default is [Some 8]. *)
Definition DictionaryFactory (cache_max_size : option Z) : factory :=
  {| _data := DictObj 0 [::];
     _loader := new_lru_cache cache_max_size;
     next_id := 1;
     logged := [::] |}.

Definition default_cache_max_size : option Z := Some 8%Z.

(** [self._data = {}]: a new object. *)
Definition reset_data (self : factory) : factory :=
  Factory (DictObj (next_id self) [::]) (_loader self) (next_id self).+1
          (logged self).

(** [self._data.pop(lang)]. *)
Definition pop_data (self : factory) (l : lang) : factory :=
  Factory (DictObj (obj_id (_data self)) (dict_pop (items (_data self)) l))
          (_loader self) (next_id self) (logged self).

(** [self._data[lang] = d]. *)
Definition set_data (self : factory) (l : lang) (d : dictionary) : factory :=
  Factory (DictObj (obj_id (_data self)) (dict_set (items (_data self)) l d))
          (_loader self) (next_id self) (logged self).

Definition set_loader (self : factory) (c : lru_cache) : factory :=
  Factory (_data self) c (next_id self) (logged self).

Definition log (self : factory) (r : log_record) : factory :=
  Factory (_data self) (_loader self) (next_id self) (rcons (logged self) r).

(** Lines 54-59: the body of the loading loop over the precomputed list. *)
Fixpoint load_langs (self : factory) (todo : seq lang)
  : outcome unit * factory :=
  match todo with
  | [::] => (Ok tt, self)
  | l :: todo' =>
      if l \notin LANGLIST then load_langs (log self (LogError l)) todo'
      else
        let self := log self (LogDebug l) in
        let: (r, c) := lru_call (_loader self) l in
        let self := set_loader self c in
        match r with
        | Ok d => load_langs (set_data self l d) todo'
        | Raise e => (Raise e, self)
        end
  end.

(** The test of line 47. *)
Definition same_languages (self : factory) (langs : seq lang) : bool :=
  (items (_data self) != [::])
  && py_eq (PyTuple (py_sorted (dict_keys (items (_data self)))))
           (PyList (py_sorted langs)).

Definition get_dictionaries (self : factory) (langs : pyval)
  : outcome dict_obj * factory :=
  match _control_lang langs with
  | Raise e => (Raise e, self)
  | Ok langs =>
      if same_languages self langs then (Ok (_data self), self)
      else
        let self := reset_data self in
        let self :=
          foldl pop_data self
                [seq l <- dict_keys (items (_data self)) | l \notin langs] in
        let: (r, self) :=
          load_langs self
                [seq l <- langs | l \notin dict_keys (items (_data self))] in
        match r with
        | Ok _ => (Ok (_data self), self)
        | Raise e => (Raise e, self)
        end
  end.

(** A caller's successive calls; it keeps the factory whatever a call
    returns. *)
Definition run_calls (self : factory) (requests : seq pyval) : factory :=
  foldl (fun s r => (get_dictionaries s r).2) self requests.

End DictionaryFactory.

(** ** Vocabulary of the statements *)

(** The elements of a sequence in order of first occurrence. *)
Fixpoint dedup (T : eqType) (s : seq T) : seq T :=
  if s is x :: s' then x :: [seq y <- dedup s' | y != x] else [::].

(** [k < v * 2 ^ e] and [k <= v * 2 ^ e] for integers [k], [v] and [e], in
    exact arithmetic: both sides are multiplied by the power of two that
    clears a negative exponent. *)
Definition lt_scaled (k v e : Z) : bool :=
  (k * 2 ^ Z.max 0 (- e) <? v * 2 ^ Z.max 0 e)%Z.

Definition le_scaled (k v e : Z) : bool :=
  (k * 2 ^ Z.max 0 (- e) <=? v * 2 ^ Z.max 0 e)%Z.

Section SamplerVocabulary.

Variable char : eqType.
Variable isupper : char -> bool.

(** A token that begins with an uppercase character. *)
Definition head_upper (t : token char) : bool :=
  if t is ch :: _ then isupper ch else false.

(** The test of line 68 on the counter of [tokens]. *)
Definition few_capitalized (t : pynum) (tokens : seq (token char)) : bool :=
  len_lt_times (count head_upper (dedup tokens)) t (size (dedup tokens)).

(** The filter removes the capitalised tokens: both tests of lines 66 and 68
    pass. *)
Definition filter_applies (t : pynum) (tokens : seq (token char)) : bool :=
  num_gt_zero t && few_capitalized t tokens.

(** The distinct tokens left after lines 66-70, in order of first
    occurrence. *)
Definition surviving (t : pynum) (tokens : seq (token char))
  : seq (token char) :=
  [seq x <- dedup tokens | ~~ (filter_applies t tokens && head_upper x)].

(** [x] ranks before [y]: it is more frequent in [tokens], or as frequent
    and first seen earlier. *)
Definition ranks_before (tokens : seq (token char)) : rel (token char) :=
  fun x y =>
    (count_mem y tokens < count_mem x tokens)
    || ((count_mem x tokens == count_mem y tokens)
        && (index x tokens < index y tokens)).

End SamplerVocabulary.

(** ASCII characters, for the examples: on them [str.isupper] is the test
    for the letters A to Z. *)
HB.instance Definition _ := hasDecEq.Build ascii Ascii.eqb_spec.

Definition ascii_isupper (c : ascii) : bool :=
  (65 <=? N_of_ascii c)%N && (N_of_ascii c <=? 90)%N.

Definition tok (s : string) : seq ascii := list_ascii_of_string s.

(** The keys of a [dict] after an assignment to the key [k]. *)
Definition add_key (ks : seq lang) (k : lang) : seq lang :=
  if k \in ks then ks else rcons ks k.

(** In the history [cs] of the wrapper's calls (latest first), the latest
    call with [y] came after the latest call with [x]. *)
Definition called_after (cs : seq lang) : rel lang :=
  fun x y => index y cs < index x cs.

(** What holds of a size-limited cache between calls: no key twice, no more
    entries than [maxsize], and the entries in the order of their latest
    calls. *)
Definition lru_inv (c : lru_cache) : bool :=
  if maxsize c is Some n then
    [&& uniq (dict_keys (cache_entries c)),
        size (cache_entries c) <= n,
        all (mem (calls c)) (dict_keys (cache_entries c))
      & pairwise (called_after (calls c)) (dict_keys (cache_entries c))]
  else true.

(** The state of a factory between calls: its cache, when size-limited,
    satisfies [lru_inv], and only supported languages are cached. *)
Definition factory_inv (LANGLIST : seq lang) (self : factory) : bool :=
  lru_inv (_loader self)
  && all (mem LANGLIST) (dict_keys (cache_entries (_loader self))).

(** An installation for the examples: four supported languages, the data
    file of one of them ("fr") missing. *)
Definition example_LANGLIST : seq lang := [:: "de"; "en"; "fr"; "it"]%string.

Definition example_package_path (name : string) : string :=
  String.append "/site-packages/simplemma/"%string name.

Definition example_lzma_open (path : string) : outcome lzma_file :=
  if path \in [:: "/site-packages/simplemma/data/de.plzma";
                  "/site-packages/simplemma/data/en.plzma";
                  "/site-packages/simplemma/data/it.plzma"]%string
  then Ok [:: Byte.x00] else Raise FileNotFoundError.

Definition example_pickle_load (f : lzma_file) : outcome pickled :=
  Ok (PickledDict [:: ("houses", "house")%string]).

Definition example_get_dictionaries :=
  get_dictionaries example_package_path example_lzma_open
                   example_pickle_load example_LANGLIST.

(** Every cached dictionary is the one the loader returns for its
    language. *)
Definition cache_sound (package_path : String.string -> String.string)
    (lzma_open : String.string -> outcome lzma_file)
    (pickle_load : lzma_file -> outcome pickled) (c : lru_cache) : Prop :=
  forall it, it \in cache_entries c ->
    _load_dictionary_from_disk package_path lzma_open pickle_load it.1
    = Ok it.2.

(** What a call hands back, apart from the identity of the [dict]: its
    items, or the exception. *)
Definition returned_items (r : outcome dict_obj)
  : outcome (seq (lang * dictionary)) :=
  match r with
  | Ok obj => Ok (items obj)
  | Raise e => Raise e
  end.

(** [RelaxedMostCommonTokenSampler(tokenizer)], with the default sample
    size and threshold of lines 79-80. *)
Definition relaxed_sampler (char : eqType) (isupper : char -> bool)
    (tokenizer : Tokenizer char) : BaseTokenSampler char :=
  RelaxedMostCommonTokenSampler isupper tokenizer relaxed_default_sample_size
    relaxed_default_capitalized_threshold.

(** ** Sequences without repetition *)

Section Dedup.

Variable T : eqType.
Implicit Types (s : seq T) (x y z : T).

Lemma mem_dedup s : dedup s =i s.
Proof.
elim: s => [|z s IH] x //=.
by rewrite !inE mem_filter IH; case: (x == z).
Qed.

Lemma dedup_uniq s : uniq (dedup s).
Proof.
elim: s => [|z s IH] //=.
by rewrite mem_filter eqxx /= filter_uniq.
Qed.

Lemma dedup_id s : uniq s -> dedup s = s.
Proof.
elim: s => [|z s IH] //= /andP[zs /IH ->].
congr cons; apply/all_filterP/allP => y ys.
by apply: contraNneq zs => <-.
Qed.

Lemma dedup_rcons s x :
  dedup (rcons s x) = if x \in s then dedup s else rcons (dedup s) x.
Proof.
elim: s => [|z s IH] //=.
rewrite IH inE; case: (x =P z) => [->|/eqP xz] /=.
  by case: ifP => // _; rewrite filter_rcons eqxx.
by case: ifP => // _; rewrite filter_rcons xz.
Qed.

Lemma index_cons_neq z s x : x != z -> index x (z :: s) = (index x s).+1.
Proof. by rewrite /= eq_sym => /negbTE ->. Qed.

Lemma dedup_pairwise_index s :
  pairwise (fun x y => index x s < index y s) (dedup s).
Proof.
elim: s => [|z s IH] //=; apply/andP; split.
  apply/allP => y; rewrite mem_filter => /andP[yz _].
  by rewrite eqxx eq_sym (negbTE yz).
have := pairwise_filter (fun y => y != z) IH.
rewrite (@eq_in_pairwise _ [pred y | y != z] _
           (fun x y => index x (z :: s) < index y (z :: s))) //.
  by move=> x y xz yz; rewrite !index_cons_neq.
by apply/allP => y; rewrite mem_filter => /andP[].
Qed.

End Dedup.

(** ** [Counter] and the capitalisation filter *)

Section CounterTheory.

Variable char : eqType.
Variable isupper : char -> bool.

Local Notation token := (token char).
Local Notation counter := (counter char).
Implicit Types (c : counter) (x y : token) (ts ks ds : seq token).

Lemma counter_incr_map (f : token -> nat) ks x :
  uniq ks ->
  counter_incr [seq (y, f y) | y <- ks] x =
  if x \in ks then [seq (y, if y == x then (f y).+1 else f y) | y <- ks]
  else rcons [seq (y, f y) | y <- ks] (x, 1).
Proof.
elim: ks => [|z ks IH] //= /andP[zks uks].
rewrite inE [x == z]eq_sym; case: (z =P x) => [zx|_] /=.
  congr cons; apply/eq_in_map => y yks.
  by case: eqP => // yx; rewrite zx -yx yks in zks.
by rewrite IH //; case: ifP.
Qed.

Lemma count_mem_rcons ts x y :
  count_mem y (rcons ts x) = count_mem y ts + (x == y).
Proof. by rewrite -cats1 count_cat /= addn0. Qed.

(** The counter lists each distinct token once, in order of first
    occurrence, with its number of occurrences. *)
Lemma CounterE ts : Counter ts = [seq (x, count_mem x ts) | x <- dedup ts].
Proof.
elim/last_ind: ts => [|ts x IH] //.
rewrite /Counter foldl_rcons -/(Counter ts) IH counter_incr_map ?dedup_uniq //.
rewrite mem_dedup dedup_rcons; case: ifP => xts.
  apply/eq_map => y; rewrite count_mem_rcons [y == x]eq_sym.
  by case: (x == y); rewrite ?addn1 ?addn0.
rewrite map_rcons count_mem_rcons eqxx (count_memPn _) ?xts //.
congr rcons; apply/eq_in_map => y; rewrite mem_dedup => yts.
rewrite count_mem_rcons.
case: eqP => [xy|_]; last by rewrite addn0.
by rewrite -xy xts in yts.
Qed.

Lemma keys_Counter ts : keys (Counter ts) = dedup ts.
Proof. by rewrite CounterE /keys -map_comp map_id_in. Qed.

Lemma size_Counter ts : size (Counter ts) = size (dedup ts).
Proof. by rewrite -keys_Counter size_map. Qed.

Lemma counter_get_map (f : token -> nat) ks x :
  counter_get [seq (y, f y) | y <- ks] x = if x \in ks then f x else 0.
Proof.
elim: ks => [|z ks IH] //=.
by rewrite inE eq_sym; case: (x =P z) => [->|].
Qed.

Lemma counter_get_Counter ts x : counter_get (Counter ts) x = count_mem x ts.
Proof.
rewrite CounterE counter_get_map mem_dedup.
by case: ifP => // /count_memPn ->.
Qed.

(** [token for token in counter if token[0].isupper()] on non-empty keys. *)
Lemma capitalized_ok ks :
  [::] \notin ks -> capitalized isupper ks = Ok (filter (head_upper isupper) ks).
Proof.
elim: ks => [|[|ch t] ks IH] //=.
by rewrite inE /= => /IH ->.
Qed.

Lemma capitalized_raises ks :
  [::] \in ks -> capitalized isupper ks = Raise IndexError.
Proof.
elim: ks => [|[|ch t] ks IH] //=.
by rewrite inE /= => /IH ->.
Qed.

Lemma counter_del_filter c x :
  uniq (keys c) -> counter_del c x = [seq it <- c | it.1 != x].
Proof.
elim: c => [|[y n] c IH] //= /andP[yc uc].
case: (y =P x) => [<-|_] /=; last by rewrite IH.
apply/esym/all_filterP/allP => -[z m] zc /=.
by apply: contraNneq yc => <-; apply/mapP; exists (z, m).
Qed.

Lemma foldl_counter_del c ds :
  uniq (keys c) ->
  foldl (@counter_del char) c ds = [seq it <- c | it.1 \notin ds].
Proof.
elim: ds c => [|x ds IH] c uc /=; first by rewrite filter_predT.
rewrite counter_del_filter // IH.
  by rewrite /keys; apply: (subseq_uniq _ uc); apply/map_subseq/filter_subseq.
by rewrite -filter_predI; apply: eq_filter => it /=; rewrite inE negb_or andbC.
Qed.

(** The filter on the counter of a sequence of non-empty tokens. *)
Lemma drop_capitalized_ok t ts :
  [::] \notin ts ->
  drop_capitalized isupper t (Counter ts) =
  Ok (if filter_applies isupper t ts
      then [seq it <- Counter ts | ~~ head_upper isupper it.1]
      else Counter ts).
Proof.
move=> ne; rewrite /drop_capitalized /filter_applies /few_capitalized.
case: (num_gt_zero t) => //=.
rewrite keys_Counter capitalized_ok ?mem_dedup //= size_filter size_Counter.
case: ifP => // _; rewrite foldl_counter_del ?keys_Counter ?dedup_uniq //.
congr Ok; apply: eq_in_filter => -[x n] /(map_f fst) /=.
rewrite -/(keys _) keys_Counter => xd.
by rewrite mem_filter xd andbT.
Qed.

Lemma drop_capitalized_off t c :
  ~~ num_gt_zero t -> drop_capitalized isupper t c = Ok c.
Proof. by rewrite /drop_capitalized => /negbTE ->. Qed.

Lemma drop_capitalized_raises t ts :
  num_gt_zero t -> [::] \in ts ->
  drop_capitalized isupper t (Counter ts) = Raise IndexError.
Proof.
move=> gt0 e; rewrite /drop_capitalized gt0 keys_Counter.
by rewrite capitalized_raises ?mem_dedup.
Qed.

End CounterTheory.

(** ** The sample returned by [most_common] *)

Section SamplerTheory.

Variable char : eqType.
Variable isupper : char -> bool.

Local Notation token := (token char).
Implicit Types (x y : token) (ts : seq token) (p : pred token).

Lemma by_count_desc_total : total (@by_count_desc char).
Proof. by move=> a b; rewrite /by_count_desc leq_total. Qed.

Lemma filter_Counter ts p :
  [seq it <- Counter ts | p it.1] =
  [seq (x, count_mem x ts) | x <- [seq x <- dedup ts | p x]].
Proof. by rewrite CounterE filter_map. Qed.

(** Sorting the counter by descending count, stably, sorts its tokens by
    rank. *)
Lemma sorted_items_ranked ts p :
  pairwise (ranks_before ts)
    [seq it.1 | it <- sorted_items [seq it <- Counter ts | p it.1]].
Proof.
set c := [seq it <- _ | _].
pose first_seen : rel (token * nat) := fun a b => index a.1 ts < index b.1 ts.
pose lexi : rel (token * nat) :=
  [rel a b | by_count_desc a b && (by_count_desc b a ==> first_seen a b)].
have lexi_tr : transitive lexi.
  move=> b a d /andP[ba ab] /andP[db bd]; apply/andP; split.
    exact: leq_trans db ba.
  apply/implyP => ad.
  have bd' : by_count_desc d b by exact: leq_trans ba ad.
  have ab' : by_count_desc b a by exact: leq_trans ad db.
  by move: ab bd; rewrite bd' ab' /=; apply: ltn_trans.
have c_first : pairwise first_seen c.
  rewrite /c filter_Counter pairwise_map.
  exact/pairwise_filter/dedup_pairwise_index.
have := sort_pairwise_stable by_count_desc_total c_first.
rewrite -/lexi sorted_pairwise // -/(sorted_items c) pairwise_map.
apply: sub_in_pairwise (allss _) => a b.
rewrite !mem_sort /c filter_Counter => /mapP[x _ ->] /mapP[y _ ->].
rewrite /lexi /by_count_desc /first_seen /ranks_before /= => /andP[yx].
rewrite [_ < count_mem x ts]ltnNge eqn_leq yx andbT.
by case: (count_mem x ts <= count_mem y ts).
Qed.

Lemma keys_sorted_items ts p :
  perm_eq [seq it.1 | it <- sorted_items [seq it <- Counter ts | p it.1]]
          [seq x <- dedup ts | p x].
Proof.
rewrite /sorted_items (perm_trans (perm_map _ (permEl (perm_sort _ _)))) //.
by rewrite filter_Counter -map_comp map_id_in.
Qed.

(** What [most_common] returns on a filtered counter: distinct tokens, as
    many as asked for when there are enough, in rank order, and ranking
    before every token left out. *)
Lemma most_common_ranked ts p n :
  let kept := [seq x <- dedup ts | p x] in
  let out := [seq it.1 | it <- most_common n [seq it <- Counter ts | p it.1]] in
  [/\ uniq out,
      size out = minn (Z.to_nat n) (size kept),
      {subset out <= kept},
      pairwise (ranks_before ts) out
    & forall x y, x \in out -> y \in kept -> y \notin out ->
                  ranks_before ts x y].
Proof.
move=> kept out.
have perm := keys_sorted_items ts p.
have ranked := sorted_items_ranked ts p.
move: perm ranked; rewrite /out /most_common map_take.
set sorted_keys := [seq it.1 | it <- sorted_items _] => perm ranked.
have uniq_sorted : uniq sorted_keys.
  by rewrite (perm_uniq perm) filter_uniq ?dedup_uniq.
split.
- exact: take_uniq.
- by rewrite size_take_min (perm_size perm).
- by move=> x /mem_take; rewrite (perm_mem perm).
- exact: subseq_pairwise (take_subseq _ _) ranked.
move=> x y x_out y_kept y_out.
move: ranked; rewrite -{1}(cat_take_drop (Z.to_nat n) sorted_keys).
rewrite pairwise_cat => /and3P[/allrelP ranked _ _].
apply: ranked => //.
move: y_kept; rewrite -(perm_mem perm).
by rewrite -{1}(cat_take_drop (Z.to_nat n) sorted_keys) mem_cat (negbTE y_out).
Qed.

End SamplerTheory.

(** ** [MostCommonTokenSampler.sample_tokens] *)

Section SampleTokens.

Variable char : eqType.
Variable isupper : char -> bool.

Local Notation token := (token char).
Implicit Types (x y : token) (ts : seq token) (t : pynum) (n : Z).

(** When no token is empty, or the threshold is not positive, lines 66-70
    leave the counter of the surviving tokens. *)
Lemma drop_capitalized_Counter t ts :
  ([::] \notin ts) || ~~ num_gt_zero t ->
  drop_capitalized isupper t (Counter ts) =
  Ok [seq it <- Counter ts | ~~ (filter_applies isupper t ts
                                 && head_upper isupper it.1)].
Proof.
case: (boolP (num_gt_zero t)) => [gt0|le0 _]; last first.
  rewrite drop_capitalized_off // /filter_applies (negbTE le0) /=.
  by rewrite filter_predT.
rewrite orbF => /(drop_capitalized_ok isupper t) ->.
by case: (filter_applies _ _ _) => //=; rewrite filter_predT.
Qed.

Lemma sample_tokens_Counter n t ts :
  ([::] \notin ts) || ~~ num_gt_zero t ->
  sample_tokens isupper n t ts =
  Ok [seq it.1 | it <- most_common n
        [seq it <- Counter ts | ~~ (filter_applies isupper t ts
                                    && head_upper isupper it.1)]].
Proof. by move=> ok; rewrite /sample_tokens drop_capitalized_Counter. Qed.

Lemma sample_tokens_raises n t ts :
  num_gt_zero t -> [::] \in ts ->
  sample_tokens isupper n t ts = Raise IndexError.
Proof.
by move=> gt0 e; rewrite /sample_tokens drop_capitalized_raises.
Qed.

Lemma keys_filter_Counter ts (p : pred token) :
  keys [seq it <- Counter ts | p it.1] = [seq x <- dedup ts | p x].
Proof. by rewrite filter_Counter /keys -map_comp map_id_in. Qed.

Lemma counter_get_filter_Counter ts (p : pred token) x :
  counter_get [seq it <- Counter ts | p it.1] x =
  if (x \in ts) && p x then count_mem x ts else 0.
Proof.
by rewrite filter_Counter counter_get_map mem_filter mem_dedup andbC.
Qed.

End SampleTokens.

(** ** The product of a float threshold and a length *)

Section Binary64.

Local Open Scope Z_scope.

(** [digits2_pos p] is the number of binary digits of [p]. *)
Lemma digits2_pos_bounds (p : positive) :
  2 ^ (Zpos (digits2_pos p) - 1) <= Zpos p < 2 ^ Zpos (digits2_pos p).
Proof.
have step d : 0 < d -> 2 ^ (Z.succ d - 1) = 2 * 2 ^ (d - 1) /\ 2 ^ Z.succ d = 2 * 2 ^ d.
  move=> d0; rewrite -!Z.pow_succ_r; try lia.
  by split=> //; congr (2 ^ _); lia.
elim: p => [p IH|p IH|]; cbn [digits2_pos]; rewrite ?Pos2Z.inj_succ.
- have [-> ->] := step (Z.pos (digits2_pos p)) (Pos2Z.is_pos _); lia.
- have [-> ->] := step (Z.pos (digits2_pos p)) (Pos2Z.is_pos _); lia.
- by [].
Qed.

(** [iter_pos] iterates as [Pos.iter] does. *)
Lemma iter_pos_iter (A : Type) (f : A -> A) (p : positive) (x : A) :
  iter_pos f p x = Pos.iter f x p.
Proof.
elim: p x => [p IH|p IH|] x //=.
- by rewrite !IH !Pos.iter_swap.
- by rewrite !IH.
Qed.

(** One shift to the right halves the mantissa, and remembers the bit
    shifted out and whether an earlier one was set. *)
Lemma shr_1_spec (m : Z) (r s : bool) :
  0 <= m ->
  shr_1 (Build_shr_record m r s)
  = Build_shr_record (m / 2) (Z.odd m) (r || s).
Proof.
move=> m0; rewrite -Z.div2_div.
by case: m m0 => [|[p|p|]|p] //.
Qed.

(** [p] shifts divide by [2 ^ p]; no bit is remembered when the division
    is exact. *)
Lemma shr_iter_spec (m : Z) (p : positive) :
  0 <= m ->
  shr_m (Pos.iter shr_1 (Build_shr_record m false false) p) = m / 2 ^ Zpos p
  /\ (m mod 2 ^ Zpos p = 0 ->
      shr_r (Pos.iter shr_1 (Build_shr_record m false false) p) = false
      /\ shr_s (Pos.iter shr_1 (Build_shr_record m false false) p) = false).
Proof.
move=> m0; elim/Pos.peano_ind: p => [|p IH].
  cbn [Pos.iter]; rewrite shr_1_spec //=; split=> // e; split=> //.
  have := Z.mod_pos_bound m 2; have := Zmod_odd m.
  have e' : m mod 2 = 0 by exact: e.
  by case: (Z.odd m) => //; lia.
rewrite Pos.iter_succ.
move: IH; case: (Pos.iter _ _ _) => m1 r1 s1; cbn [shr_m shr_r shr_s] => -[em1 ex1].
have p2 : 0 < 2 ^ Z.pos p by apply: Z.pow_pos_nonneg.
have m10 : 0 <= m1 by rewrite em1; apply: Z.div_pos.
rewrite shr_1_spec //; cbn [shr_m shr_r shr_s].
rewrite Pos2Z.inj_succ Z.pow_succ_r //.
split.
  rewrite em1 Z.div_div; try lia.
  by rewrite Z.mul_comm.
move=> e.
have [q eq] : exists q, m = q * (2 * 2 ^ Z.pos p).
  exists (m / (2 * 2 ^ Z.pos p)).
  have := Z_div_mod_eq_full m (2 * 2 ^ Z.pos p); lia.
have em : m = (2 * q) * 2 ^ Z.pos p by lia.
have [-> ->] : r1 = false /\ s1 = false.
  by apply: ex1; rewrite em Z.mod_mul; try lia.
split=> //.
rewrite em1 em Z.div_mul; try lia.
by rewrite Z.odd_mul.
Qed.

(** [SpecFloat] writes its arithmetic with the operations of [IntDef]. *)
Ltac zfold :=
  change IntDef.Z.add with Z.add in *; change IntDef.Z.sub with Z.sub in *;
  change IntDef.Z.mul with Z.mul in *; change IntDef.Z.opp with Z.opp in *;
  change IntDef.Z.max with Z.max in *; change IntDef.Z.min with Z.min in *.
Ltac zlia := zfold; lia.

(** [shr_fexp] on an exact mantissa: the mantissa is divided by a power of
    two and the exponent raised by as much, the location is exact when the
    division is, and a mantissa that was shifted has 53 digits unless the
    exponent is the least one. *)
Lemma shr_fexp_spec (m e : Z) :
  0 <= m ->
  exists s,
    [/\ 0 <= s,
        (shr_fexp 53 1024 m e loc_Exact).2 = e + s,
        shr_m (shr_fexp 53 1024 m e loc_Exact).1 = m / 2 ^ s,
        m mod 2 ^ s = 0 ->
        loc_of_shr_record (shr_fexp 53 1024 m e loc_Exact).1 = loc_Exact
      & 0 < s ->
        (shr_fexp 53 1024 m e loc_Exact).2 = -1074
        \/ 2 ^ 52 <= shr_m (shr_fexp 53 1024 m e loc_Exact).1].
Proof.
move=> m0; rewrite /shr_fexp /shr /=.
case es: (fexp 53 1024 (Zdigits2 m + e) - e) => [|p|p].
- by exists 0; split=> //=; rewrite ?Z.div_1_r //; lia.
- exists (Z.pos p); rewrite iter_pos_iter.
  have [em ex] := shr_iter_spec p m0.
  split=> //=.
  + move/ex; case: (Pos.iter _ _ _) => m1 r1 s1 /= [-> ->].
    by [].
  + move=> _; rewrite em.
    move: es; rewrite /fexp /emin => es.
    have [le|gt] := Z.le_gt_cases (Zdigits2 m + e - 53) (3 - 1024 - 53).
      by left; move: es; rewrite Z.max_r //; zlia.
    right; move: es; rewrite Z.max_l; first zlia.
    case: m m0 gt {em ex} => [|q|q] // _ gt es; first by move: es => /=; zlia.
    have [lo _] := digits2_pos_bounds q.
    change (Z.pow_pos 2 52) with (2 ^ 52).
    apply: Z.div_le_lower_bound; first exact: Z.pow_pos_nonneg.
    rewrite -Z.pow_add_r; try lia.
    suff <- : Z.pos (digits2_pos q) - 1 = Z.pos p + 52 by [].
    by move: es; change (Zdigits2 (Z.pos q)) with (Z.pos (digits2_pos q)); zlia.
- by exists 0; split=> //=; rewrite ?Z.div_1_r //; lia.
Qed.


Lemma pow2_gt0 (a : Z) : 0 <= a -> 0 < 2 ^ a.
Proof. by move=> a0; apply: Z.pow_pos_nonneg. Qed.

Lemma pow2_add (a b : Z) : 0 <= a -> 0 <= b -> 2 ^ (a + b) = 2 ^ a * 2 ^ b.
Proof. by move=> a0 b0; rewrite Z.pow_add_r. Qed.

(** Comparing [k] with [m * 2 ^ e] after scaling both by [2 ^ (- B)]. *)
Lemma scaled_lt_shift (k m e B : Z) : B <= e -> B <= 0 ->
  k * 2 ^ Z.max 0 (- e) < m * 2 ^ Z.max 0 e <->
  k * 2 ^ (- B) < m * 2 ^ (e - B).
Proof.
move=> Be B0.
have [e0|e0] := Z.le_gt_cases 0 e.
- have -> : Z.max 0 (- e) = 0 by lia.
  have -> : Z.max 0 e = e by lia.
  have -> : e - B = e + - B by lia.
  rewrite pow2_add; try lia.
  rewrite Z.pow_0_r Z.mul_1_r Z.mul_assoc.
  by apply: Z.mul_lt_mono_pos_r; apply: pow2_gt0; lia.
- have -> : Z.max 0 (- e) = - e by lia.
  have -> : Z.max 0 e = 0 by lia.
  have -> : - B = - e + (e - B) by lia.
  rewrite pow2_add; try lia.
  rewrite Z.pow_0_r Z.mul_1_r Z.mul_assoc.
  by apply: Z.mul_lt_mono_pos_r; apply: pow2_gt0; lia.
Qed.

Lemma scaled_le_shift (k m e B : Z) : B <= e -> B <= 0 ->
  k * 2 ^ Z.max 0 (- e) <= m * 2 ^ Z.max 0 e <->
  k * 2 ^ (- B) <= m * 2 ^ (e - B).
Proof.
move=> Be B0.
have [e0|e0] := Z.le_gt_cases 0 e.
- have -> : Z.max 0 (- e) = 0 by lia.
  have -> : Z.max 0 e = e by lia.
  have -> : e - B = e + - B by lia.
  rewrite pow2_add; try lia.
  rewrite Z.pow_0_r Z.mul_1_r Z.mul_assoc.
  by apply: Z.mul_le_mono_pos_r; apply: pow2_gt0; lia.
- have -> : Z.max 0 (- e) = - e by lia.
  have -> : Z.max 0 e = 0 by lia.
  have -> : - B = - e + (e - B) by lia.
  rewrite pow2_add; try lia.
  rewrite Z.pow_0_r Z.mul_1_r Z.mul_assoc.
  by apply: Z.mul_le_mono_pos_r; apply: pow2_gt0; lia.
Qed.


(** A binary64 number [a * 2 ^ c] (at most 53 bits at an exponent that is
    not below the least one) that is not above [m * 2 ^ e] is not above the
    truncation of [m * 2 ^ e] by [shr_fexp] either. *)
Lemma stage_floor (m e s B a c : Z) :
  0 <= m -> 0 <= s -> B <= e -> B <= c -> 0 <= a <= 2 ^ 53 ->
  (0 < s -> e + s <= c \/ 2 ^ 52 <= m / 2 ^ s) ->
  a * 2 ^ (c - B) <= m * 2 ^ (e - B) ->
  a * 2 ^ (c - B) <= m / 2 ^ s * 2 ^ (e + s - B).
Proof.
move=> m0 s0 Be Bc [a0 a53] big.
have p0 : 0 < 2 ^ s by apply: pow2_gt0.
have h0 : 0 < 2 ^ (e - B) by apply: pow2_gt0; lia.
have b0 : 0 < 2 ^ (c - B) by apply: pow2_gt0; lia.
have [->|{}s0] : s = 0 \/ 0 < s by lia.
  by rewrite Z.pow_0_r Z.div_1_r Z.add_0_r.
have [es|es] := Z.le_gt_cases (e + s) c.
- have -> : 2 ^ (c - B) = 2 ^ (c - (e + s)) * (2 ^ s * 2 ^ (e - B)).
    by rewrite -!pow2_add; try lia; congr (2 ^ _); lia.
  have -> : 2 ^ (e + s - B) = 2 ^ s * 2 ^ (e - B).
    by rewrite -pow2_add; try lia; congr (2 ^ _); lia.
  move: h0; set h := 2 ^ (e - B) => h0.
  rewrite !Z.mul_assoc; set q := a * _ => le.
  apply: Z.mul_le_mono_nonneg_r; first lia.
  have {}le : q * 2 ^ s <= m by apply/(Z.mul_le_mono_pos_r _ _ _ h0).
  have mq : 0 <= m / 2 ^ s by apply: Z.div_pos.
  apply: Z.mul_le_mono_nonneg_r; first lia.
  by apply: Z.div_le_lower_bound => //; rewrite Z.mul_comm.
- have [|m52 _] := big s0; first lia.
  have -> : 2 ^ (e + s - B) = 2 ^ (e + s - c) * 2 ^ (c - B).
    by rewrite -pow2_add; try lia; congr (2 ^ _); lia.
  rewrite Z.mul_assoc; apply: Z.mul_le_mono_nonneg_r; first lia.
  have two : 2 ^ 1 <= 2 ^ (e + s - c) by apply: Z.pow_le_mono_r; lia.
  have p1 : 0 < 2 ^ (e + s - c) by apply: pow2_gt0; lia.
  apply: (Z.le_trans _ (2 ^ 52 * 2 ^ 1)); first by lia.
  by apply: Z.mul_le_mono_nonneg; lia.
Qed.

(** Nor is such a number that is not below [m * 2 ^ e] below the next
    mantissa, when the truncation is inexact. *)
Lemma stage_ceil (m e s B a c : Z) :
  0 <= m -> 0 <= s -> B <= e -> B <= c -> 0 <= a <= 2 ^ 53 ->
  (0 < s -> e + s <= c \/ 2 ^ 52 <= m / 2 ^ s) ->
  m mod 2 ^ s <> 0 ->
  m * 2 ^ (e - B) <= a * 2 ^ (c - B) ->
  (m / 2 ^ s + 1) * 2 ^ (e + s - B) <= a * 2 ^ (c - B).
Proof.
move=> m0 s0 Be Bc [a0 a53] big.
have p0 : 0 < 2 ^ s by apply: pow2_gt0.
have h0 : 0 < 2 ^ (e - B) by apply: pow2_gt0; lia.
have b0 : 0 < 2 ^ (c - B) by apply: pow2_gt0; lia.
have [->|{}s0] : s = 0 \/ 0 < s by lia.
  by rewrite Z.pow_0_r Z.mod_1_r.
move=> r0.
have lt : 2 ^ s * (m / 2 ^ s) < m.
  have := Z.div_mod m (2 ^ s); have := Z.mod_pos_bound m (2 ^ s) p0; lia.
have mq : 0 <= m / 2 ^ s by apply: Z.div_pos.
have [es|es] := Z.le_gt_cases (e + s) c.
- have -> : 2 ^ (c - B) = 2 ^ (c - (e + s)) * (2 ^ s * 2 ^ (e - B)).
    by rewrite -!pow2_add; try lia; congr (2 ^ _); lia.
  have -> : 2 ^ (e + s - B) = 2 ^ s * 2 ^ (e - B).
    by rewrite -pow2_add; try lia; congr (2 ^ _); lia.
  move: h0; set h := 2 ^ (e - B) => h0.
  rewrite !Z.mul_assoc; set q := a * _ => le.
  have {}le : m <= q * 2 ^ s by apply/(Z.mul_le_mono_pos_r _ _ _ h0).
  apply: Z.mul_le_mono_nonneg_r; first lia.
  apply: Z.mul_le_mono_nonneg_r; first lia.
  suff : m / 2 ^ s < q by lia.
  by apply/(Z.mul_lt_mono_pos_l _ _ _ p0); lia.
- have [|m52 le] := big s0; first lia.
  have eq : 2 ^ s * 2 ^ (e - B) = 2 ^ (e + s - c) * 2 ^ (c - B).
    by rewrite -!pow2_add; try lia; congr (2 ^ _); lia.
  have two : 2 ^ 1 <= 2 ^ (e + s - c) by apply: Z.pow_le_mono_r; lia.
  have l1 : 2 ^ s * (m / 2 ^ s) * 2 ^ (e - B) < m * 2 ^ (e - B).
    exact: (proj1 (Z.mul_lt_mono_pos_r _ _ _ h0)).
  have l2 : 2 ^ 53 * 2 ^ (c - B) <= 2 ^ s * (m / 2 ^ s) * 2 ^ (e - B).
    have -> : 2 ^ s * (m / 2 ^ s) * 2 ^ (e - B)
              = m / 2 ^ s * 2 ^ (e + s - c) * 2 ^ (c - B).
      by rewrite -[_ * 2 ^ (e + s - c) * _]Z.mul_assoc -eq; ring.
    apply: Z.mul_le_mono_nonneg_r; first lia.
    apply: (Z.le_trans _ (2 ^ 52 * 2 ^ 1)); first by lia.
    by apply: Z.mul_le_mono_nonneg; lia.
  have l3 : a * 2 ^ (c - B) <= 2 ^ 53 * 2 ^ (c - B).
    by apply: Z.mul_le_mono_nonneg_r; lia.
  lia.
Qed.

Lemma stage_floor_le (m e s B : Z) :
  0 <= m -> 0 <= s -> B <= e ->
  m / 2 ^ s * 2 ^ (e + s - B) <= m * 2 ^ (e - B).
Proof.
move=> m0 s0 Be.
have p0 : 0 < 2 ^ s by apply: pow2_gt0.
have h0 : 0 < 2 ^ (e - B) by apply: pow2_gt0; lia.
have -> : 2 ^ (e + s - B) = 2 ^ s * 2 ^ (e - B).
  by rewrite -pow2_add; try lia; congr (2 ^ _); lia.
rewrite Z.mul_assoc; apply: Z.mul_le_mono_nonneg_r; first lia.
by rewrite Z.mul_comm; apply: Z.mul_div_le.
Qed.

(** Rounding to nearest never crosses a binary64 number: the result of
    [binary_round_aux] on [M * 2 ^ E] is a mantissa [m3] at an exponent [e3]
    that lies on the same side of every binary64 number [a * 2 ^ c] as
    [M * 2 ^ E] does. *)
Lemma binary_round_aux_spec (M : positive) (E : Z) :
  exists m3 e3,
    [/\ 0 <= m3, E <= e3,
        binary_round_aux 53 1024 false (Zpos M) E loc_Exact
        = match m3 with
          | Z0 => S754_zero false
          | Zpos m => if e3 <=? 1024 - 53 then S754_finite false m e3
                      else S754_infinity false
          | Zneg _ => S754_nan
          end,
        forall B a c, B <= E -> B <= c -> -1074 <= c -> 0 <= a <= 2 ^ 53 ->
          Zpos M * 2 ^ (E - B) <= a * 2 ^ (c - B) ->
          m3 * 2 ^ (e3 - B) <= a * 2 ^ (c - B)
      & forall B a c, B <= E -> B <= c -> -1074 <= c -> 0 <= a <= 2 ^ 53 ->
          a * 2 ^ (c - B) <= Zpos M * 2 ^ (E - B) ->
          a * 2 ^ (c - B) <= m3 * 2 ^ (e3 - B)].
Proof.
rewrite /binary_round_aux.
have [s1 []] := shr_fexp_spec E (Pos2Z.is_nonneg M).
case: (shr_fexp 53 1024 (Z.pos M) E loc_Exact) => mrs1 e1; cbn [fst snd].
move=> s10 e1E m1E ex1 big1.
have q10 : 0 < 2 ^ s1 by apply: pow2_gt0.
have m10 : 0 <= shr_m mrs1 by rewrite m1E; apply: Z.div_pos.
have : shr_m mrs1 <= round_nearest_even (shr_m mrs1) (loc_of_shr_record mrs1)
         <= shr_m mrs1 + 1
       /\ (Z.pos M mod 2 ^ s1 = 0 ->
           round_nearest_even (shr_m mrs1) (loc_of_shr_record mrs1)
           = shr_m mrs1).
  split; last by move/ex1 => ->.
  rewrite /round_nearest_even.
  by case: (loc_of_shr_record mrs1) => [|[]];
     [|case: (Z.even (shr_m mrs1))| |]; zlia.
set m2 := round_nearest_even _ _ => -[m2B m2E].
have m20 : 0 <= m2 by lia.
have [s2 []] := shr_fexp_spec e1 m20.
case: (shr_fexp 53 1024 m2 e1 loc_Exact) => mrs3 e3; cbn [fst snd].
move=> s20 e3E m3E _ big2.
have q20 : 0 < 2 ^ s2 by apply: pow2_gt0.
have m30 : 0 <= shr_m mrs3 by rewrite m3E; apply: Z.div_pos.
have big1' c : -1074 <= c ->
    0 < s1 -> E + s1 <= c \/ 2 ^ 52 <= Z.pos M / 2 ^ s1.
  by move=> c0 /big1; rewrite -m1E -e1E => -[->|]; [left | right].
have big2' c : -1074 <= c ->
    0 < s2 -> e1 + s2 <= c \/ 2 ^ 52 <= m2 / 2 ^ s2.
  by move=> c0 /big2; rewrite -m3E -e3E => -[->|]; [left | right].
exists (shr_m mrs3), e3; split.
- by [].
- lia.
- by case: (shr_m mrs3).
- move=> B a c BE Bc c0 aB le.
  have h1 : 0 < 2 ^ (e1 - B) by apply: pow2_gt0; lia.
  have le2 : m2 * 2 ^ (e1 - B) <= a * 2 ^ (c - B).
    case: (Z.eq_dec (Z.pos M mod 2 ^ s1) 0) => [/m2E ->|ne].
      apply: Z.le_trans le; rewrite m1E e1E.
      exact: stage_floor_le.
    apply: (Z.le_trans _ ((shr_m mrs1 + 1) * 2 ^ (e1 - B))).
      by apply: Z.mul_le_mono_nonneg_r; lia.
    by rewrite m1E e1E; apply: stage_ceil => //; apply: big1'.
  apply: Z.le_trans le2; rewrite m3E e3E.
  by apply: stage_floor_le => //; lia.
- move=> B a c BE Bc c0 aB le.
  have h1 : 0 < 2 ^ (e1 - B) by apply: pow2_gt0; lia.
  have le1 : a * 2 ^ (c - B) <= shr_m mrs1 * 2 ^ (e1 - B).
    by rewrite m1E e1E; apply: stage_floor => //; apply: big1'.
  have le2 : a * 2 ^ (c - B) <= m2 * 2 ^ (e1 - B).
    apply: Z.le_trans le1 _.
    by apply: Z.mul_le_mono_nonneg_r; lia.
  by rewrite m3E e3E; apply: stage_floor => //; [lia | apply: big2'].
Qed.

(** [int_lt_float] on a positive finite float. *)
Lemma int_lt_float_finite (k : Z) (m : positive) (e B : Z) :
  B <= e -> B <= 0 ->
  int_lt_float k (S754_finite false m e)
  <-> k * 2 ^ (- B) < Zpos m * 2 ^ (e - B).
Proof.
move=> Be B0; rewrite -(scaled_lt_shift k (Zpos m) Be B0) /int_lt_float.
case: Z.leb_spec => e0.
- have -> : Z.max 0 (- e) = 0 by lia.
  have -> : Z.max 0 e = e by lia.
  by rewrite Z.pow_0_r Z.mul_1_r; split=> /Z.ltb_lt.
- have -> : Z.max 0 (- e) = - e by lia.
  have -> : Z.max 0 e = 0 by lia.
  by rewrite Z.pow_0_r Z.mul_1_r; split=> /Z.ltb_lt.
Qed.

(** For the rounded value [fl(x)] of [x = M * 2 ^ E] and an integer
    [0 <= k < 2 ^ 53]: [k < fl(x)] implies [k < x], and [k < fl(x)] holds
    as soon as some binary64 number lies above [k] and not above [x]. *)
Lemma int_lt_round (M : positive) (E k B : Z) :
  B <= E -> B <= 0 -> 0 <= k < 2 ^ 53 ->
  (int_lt_float k (binary_round_aux 53 1024 false (Zpos M) E loc_Exact) ->
   k * 2 ^ (- B) < Zpos M * 2 ^ (E - B))
  /\ (forall a c, B <= c -> -1074 <= c -> 0 <= a <= 2 ^ 53 ->
        k * 2 ^ (- B) < a * 2 ^ (c - B) ->
        a * 2 ^ (c - B) <= Zpos M * 2 ^ (E - B) ->
        int_lt_float k (binary_round_aux 53 1024 false (Zpos M) E loc_Exact)).
Proof.
move=> BE B0 [k0 k53].
have b0 : 0 < 2 ^ (- B) by apply: pow2_gt0; lia.
have [m3 [e3 [m30 Ee3 -> U L]]] := binary_round_aux_spec M E.
split.
- have kB : 0 <= k <= 2 ^ 53 by lia.
  have c0 : -1074 <= 0 by [].
  have {U} := U B k 0 BE B0 c0 kB; rewrite Z.sub_0_l => U.
  move=> lt; apply/Z.nle_gt => /U le.
  case: m3 m30 lt le {U L} => [|m|m] // _; first by move/Z.ltb_lt; lia.
  case: Z.leb_spec => e971.
    by move/(int_lt_float_finite k m (Z.le_trans _ _ _ BE Ee3) B0); lia.
  move=> _; have -> : 2 ^ (e3 - B) = 2 ^ e3 * 2 ^ (- B).
    by rewrite -pow2_add; try lia; congr (2 ^ _); lia.
  move=> le; have lt : k * 2 ^ (- B) < 2 ^ 53 * 2 ^ (- B).
    by apply: (proj1 (Z.mul_lt_mono_pos_r _ _ _ b0)).
  have big : 2 ^ 53 <= 2 ^ e3 by apply: Z.pow_le_mono_r; lia.
  have : 2 ^ 53 * 2 ^ (- B) <= Z.pos m * (2 ^ e3 * 2 ^ (- B)).
    rewrite Z.mul_assoc; apply: Z.mul_le_mono_nonneg_r; first lia.
    have := Pos2Z.is_pos m; nia.
  lia.
- move=> a c Bc c0 aB lt /(L B a c BE Bc c0 aB) le.
  have kpos : 0 <= k * 2 ^ (- B) by apply: Z.mul_nonneg_nonneg; lia.
  case: m3 m30 le {U L} => [|m|m] // _ le; first by lia.
  case: Z.leb_spec => e971 //.
  by apply/(int_lt_float_finite k m (Z.le_trans _ _ _ BE Ee3) B0); lia.
Qed.

Lemma iter_xO_spec (p d : positive) :
  Zpos (Pos.iter xO p d) = Zpos p * 2 ^ Zpos d.
Proof.
elim/Pos.peano_ind: d => [|d IH]; first by rewrite /= Pos2Z.inj_xO; lia.
rewrite Pos.iter_succ Pos2Z.inj_xO IH Pos2Z.inj_succ Z.pow_succ_r //; lia.
Qed.

Lemma shl_align_spec (p : positive) (e e' : Z) :
  (shl_align p e e').2 <= e
  /\ Zpos (shl_align p e e').1 = Zpos p * 2 ^ (e - (shl_align p e e').2).
Proof.
rewrite /shl_align; case d: (e' - e) => [|q|q]; cbn [fst snd].
- by rewrite Z.sub_diag Z.pow_0_r; lia.
- by rewrite Z.sub_diag Z.pow_0_r; lia.
- by rewrite iter_xO_spec; split; [|congr (_ * 2 ^ _)]; lia.
Qed.

(** The conversion of a positive [int] below [2 ^ 53] is exact. *)
Lemma float_of_int_exact (p : positive) :
  Zpos p < 2 ^ 53 ->
  exists mn en ez,
    [/\ float_of_int (Zpos p) = S754_finite false mn en, ez <= en, ez <= 0
      & Zpos mn * 2 ^ (en - ez) = Zpos p * 2 ^ (- ez)].
Proof.
move=> p53; rewrite /float_of_int /binary_normalize /binary_round.
have [] := shl_align_spec p 0
             (fexp float_prec float_emax (Z.pos (digits2_pos p) + 0)).
case: shl_align => mz ez; cbn [fst snd] => ez0 mzE.
have [m3 [e3 [m30 Ee3 -> U L]]] := binary_round_aux_spec mz ez.
have b0 : 0 < 2 ^ (- ez) by apply: pow2_gt0; lia.
have p0 := Pos2Z.is_pos p.
have jB : 0 <= Zpos p <= 2 ^ 53 by lia.
have c0 : -1074 <= 0 by [].
have eq : Z.pos mz * 2 ^ (ez - ez) = Zpos p * 2 ^ (- ez).
  by rewrite Z.sub_diag Z.pow_0_r Z.mul_1_r mzE Z.sub_0_l.
have {U} := U ez (Zpos p) 0 (Z.le_refl _) ez0 c0 jB.
have {L} := L ez (Zpos p) 0 (Z.le_refl _) ez0 c0 jB.
rewrite Z.sub_0_l eq => /(_ (Z.le_refl _)) L /(_ (Z.le_refl _)) U.
have {L U} val : m3 * 2 ^ (e3 - ez) = Zpos p * 2 ^ (- ez) by lia.
have pos : 0 < Zpos p * 2 ^ (- ez) by apply: Z.mul_pos_pos.
case: m3 m30 val => [|mn|mn] // _ val; first by lia.
exists mn, e3, ez; split=> //.
case: Z.leb_spec => // e971.
have pe : 2 ^ (e3 - ez) = 2 ^ e3 * 2 ^ (- ez).
  by rewrite -pow2_add; try lia; congr (2 ^ _); lia.
have big : 2 ^ 53 <= 2 ^ e3 by apply: Z.pow_le_mono_r; lia.
have : 2 ^ 53 * 2 ^ (- ez) <= Z.pos mn * (2 ^ e3 * 2 ^ (- ez)).
  rewrite Z.mul_assoc; apply: Z.mul_le_mono_nonneg_r; first lia.
  have := Pos2Z.is_pos mn; nia.
have : Zpos p * 2 ^ (- ez) < 2 ^ 53 * 2 ^ (- ez).
  by apply: (proj1 (Z.mul_lt_mono_pos_r _ _ _ b0)).
by rewrite -pe val; lia.
Qed.

(** The test of line 68 with a positive finite float threshold
    [t = m * 2 ^ e] and lengths below [2 ^ 53]: it implies [k < t * n] in
    exact arithmetic, and [k * (1 + 2 ^ -52) <= t * n] implies it.  In
    between, the product [t * n] may round to [k]. *)
Lemma len_lt_times_float (k n : nat) (m : positive) (e : Z) :
  Z.of_nat k < 2 ^ 53 -> Z.of_nat n < 2 ^ 53 ->
  (len_lt_times k (Float (S754_finite false m e)) n ->
   lt_scaled (Z.of_nat k) (Zpos m * Z.of_nat n) e)
  /\ ((0 < k)%N ->
      le_scaled (Z.of_nat k * (2 ^ 52 + 1)) (Zpos m * Z.of_nat n) (e + 52) ->
      len_lt_times k (Float (S754_finite false m e)) n).
Proof.
move=> k53 n53; rewrite /len_lt_times /lt_scaled /le_scaled.
have k0 := Nat2Z.is_nonneg k.
case: n n53 => [|n] n53.
  rewrite /float_of_int /=.
  split; first by move/Z.ltb_lt; lia.
  move=> /ltP kpos /Z.leb_le le.
  have : 0 < Z.of_nat k * (2 ^ 52 + 1) * 2 ^ Z.max 0 (- (e + 52)).
    by apply: Z.mul_pos_pos; [|apply: pow2_gt0]; lia.
  by lia.
have [p pE] : exists p, Z.of_nat n.+1 = Zpos p by exists (Pos.of_succ_nat n).
rewrite pE in n53 *.
have [mn [en [ez [-> ezen ez0 val]]]] := float_of_int_exact n53.
rewrite /float_mul /SFmul.
change (xorb false false) with false.
set b := Z.min e 0 - 53.
have bB : b + ez <= e + en by lia.
have B0 : b + ez <= 0 by lia.
have k53' : 0 <= Z.of_nat k < 2 ^ 53 by lia.
have [S C] := int_lt_round (m * mn) bB B0 k53'.
have pw1 : 2 ^ (- (b + ez)) = 2 ^ (- b) * 2 ^ (- ez).
  by rewrite -pow2_add; try lia; congr (2 ^ _); lia.
have pw2 : 2 ^ (e + en - (b + ez)) = 2 ^ (e - b) * 2 ^ (en - ez).
  by rewrite -pow2_add; try lia; congr (2 ^ _); lia.
have z0 : 0 < 2 ^ (- ez) by apply: pow2_gt0; lia.
have rhs : Z.pos (m * mn) * 2 ^ (e + en - (b + ez))
           = Zpos m * Zpos p * 2 ^ (e - b) * 2 ^ (- ez).
  rewrite pw2 Pos2Z.inj_mul.
  have -> : Z.pos m * Z.pos mn * (2 ^ (e - b) * 2 ^ (en - ez))
            = Z.pos m * 2 ^ (e - b) * (Z.pos mn * 2 ^ (en - ez)) by ring.
  by rewrite val; ring.
have be : b <= e by lia.
have b0 : b <= 0 by lia.
split.
- move/S; rewrite rhs pw1 Z.mul_assoc.
  move/(proj2 (Z.mul_lt_mono_pos_r _ _ _ z0)).
  by move/(scaled_lt_shift _ _ be b0)/Z.ltb_lt.
- move=> /ltP kpos /Z.leb_le.
  have be' : b + 52 <= e + 52 by lia.
  have b0' : b + 52 <= 0 by lia.
  move/(scaled_le_shift _ _ be' b0').
  have -> : e + 52 - (b + 52) = e - b by lia.
  have [q qE] : exists q, Z.of_nat k = Zpos q.
    have : 0 < Z.of_nat k by lia.
    by case: (Z.of_nat k) => [|q|q] // _; exists q.
  rewrite qE in k53 k53' S C *.
  have [lo hi] := digits2_pos_bounds q.
  move: lo hi; set d := Z.pos (digits2_pos q) => lo hi le.
  have d1 : 1 <= d by rewrite /d; lia.
  have d53 : d <= 53.
    have [//|d54] := Z.le_gt_cases d 53.
    have : 2 ^ 53 <= 2 ^ (d - 1) by apply: Z.pow_le_mono_r; lia.
    by lia.
  have w0 : 0 < 2 ^ (- (b + 52)) by apply: pow2_gt0; lia.
  have s0 : 0 < 2 ^ (53 - d) by apply: pow2_gt0; lia.
  have e52 : 2 ^ (53 - d) * 2 ^ (d - 1) = 2 ^ 52.
    by rewrite -pow2_add; try lia; congr (2 ^ _); lia.
  have e53 : 2 ^ (53 - d) * 2 ^ d = 2 ^ 53.
    by rewrite -pow2_add; try lia; congr (2 ^ _); lia.
  have cB : b + ez <= d - 53 by lia.
  have c0 : -1074 <= d - 53 by lia.
  have aB : 0 <= Z.pos q * 2 ^ (53 - d) + 1 <= 2 ^ 53 by nia.
  apply: (C (Z.pos q * 2 ^ (53 - d) + 1) (d - 53) cB c0 aB).
  + have -> : 2 ^ (- (b + ez)) = 2 ^ (53 - d) * 2 ^ (d - 53 - (b + ez)).
      by rewrite -pow2_add; try lia; congr (2 ^ _); lia.
    have g0 : 0 < 2 ^ (d - 53 - (b + ez)) by apply: pow2_gt0; lia.
    by rewrite Z.mul_assoc; apply: (proj1 (Z.mul_lt_mono_pos_r _ _ _ g0)); lia.
  + rewrite rhs.
    have -> : 2 ^ (d - 53 - (b + ez))
              = 2 ^ (d - 1) * 2 ^ (- (b + 52)) * 2 ^ (- ez).
      by rewrite -!pow2_add; try lia; congr (2 ^ _); lia.
    rewrite !Z.mul_assoc; apply: Z.mul_le_mono_nonneg_r; first lia.
    apply: Z.le_trans le.
    apply: Z.mul_le_mono_nonneg_r; first lia.
    have -> : (Z.pos q * 2 ^ (53 - d) + 1) * 2 ^ (d - 1)
              = Z.pos q * (2 ^ (53 - d) * 2 ^ (d - 1)) + 2 ^ (d - 1) by ring.
    by rewrite e52; lia.
Qed.

(** With the positive infinity as threshold the test of line 68 passes for
    every positive length: the product is the infinity. *)
Lemma len_lt_times_inf (k n : nat) :
  (0 < n)%N -> Z.of_nat n < 2 ^ 53 ->
  len_lt_times k (Float (S754_infinity false)) n.
Proof.
case: n => [|n] // _ n53.
have [p pE] : exists p, Z.of_nat n.+1 = Zpos p by exists (Pos.of_succ_nat n).
rewrite /len_lt_times pE; rewrite pE in n53.
by have [mn [en [ez [-> _ _ _]]]] := float_of_int_exact n53.
Qed.

(** [t > 0] for a float [t] that is finite and not zero: its sign. *)
Lemma num_gt_zero_finite (s : bool) (m : positive) (e : Z) :
  num_gt_zero (Float (S754_finite s m e)) = ~~ s.
Proof.
rewrite /num_gt_zero /int_lt_float Z.mul_0_l.
have p0 := Pos2Z.is_pos m; have n0 := Pos2Z.neg_is_neg m.
case: Z.leb_spec => e0; case: s; cbn [negb]; apply/Z.ltb_spec0; lia.
Qed.

End Binary64.

(** ** Statements on the token samplers *)

(** C2.  On tokens that are all non-empty, lines 66-70 return a counter in
    which a capitalised token of the input is missing exactly when the
    threshold [t] is positive and the number [k] of distinct capitalised
    tokens is strictly less than the product of [t] and the number [d] of
    distinct tokens, as Python computes that product; the other tokens
    stay, every remaining token keeps its count, and [sample_tokens] ranks
    that counter.  For an [int] threshold [z] the two tests are [0 < z] and
    [k < z * d] on integers.  For a finite float threshold of sign [s] and
    magnitude [m * 2 ^ e], and fewer than [2 ^ 53] distinct tokens, the
    product is rounded to binary64: a capitalised token is missing only if
    the threshold is positive and [k < m * 2 ^ e * d] in exact arithmetic,
    and it is missing as soon as [k * (1 + 2 ^ -52) <= m * 2 ^ e * d]; in
    between, the product can round to [k], as for 4 capitalised tokens out
    of 5 with threshold 0.8, which stay.  Under the positive infinity every
    capitalised token is missing.  With a positive threshold an
    empty token makes the call raise [IndexError].  A threshold is positive
    when it is a positive [int], a finite float that is not zero and has no
    sign, or the positive infinity.  With a threshold that is not positive
    (0 in particular) the sample is taken from the whole counter, whatever
    the tokens.  On ["Apple"; "apple"; "apple"; "Banana"; "cat"] with
    threshold 0.8 and sample size 10 the sample is ["apple"; "cat"]. *)
Theorem capitalized_filter_iff :
  (forall (char : eqType) (isupper : char -> bool) t n
          (ts : seq (token char)),
      [::] \notin ts ->
      exists c,
        [/\ drop_capitalized isupper t (Counter ts) = Ok c,
            sample_tokens isupper n t ts =
              Ok [seq it.1 | it <- most_common n c],
            forall x, x \in ts -> head_upper isupper x ->
              (x \notin keys c)
              = num_gt_zero t
                && len_lt_times (count (head_upper isupper) (dedup ts)) t
                                (size (dedup ts)),
            forall x, x \in ts -> ~~ head_upper isupper x -> x \in keys c
          & forall x, x \in keys c -> counter_get c x = count_mem x ts])
  /\ (forall (char : eqType) (isupper : char -> bool) (z : Z)
             (ts : seq (token char)),
        [::] \notin ts ->
        exists c,
          drop_capitalized isupper (Int z) (Counter ts) = Ok c
          /\ forall x, x \in ts -> head_upper isupper x ->
               (x \notin keys c)
               = (0 <? z)%Z
                 && (Z.of_nat (count (head_upper isupper) (dedup ts))
                     <? z * Z.of_nat (size (dedup ts)))%Z)
  /\ (forall (char : eqType) (isupper : char -> bool) (s : bool)
             (m : positive) (e : Z) (ts : seq (token char)),
        [::] \notin ts ->
        (Z.of_nat (size (dedup ts)) < 2 ^ 53)%Z ->
        exists c,
          drop_capitalized isupper (Float (S754_finite s m e)) (Counter ts)
          = Ok c
          /\ forall x, x \in ts -> head_upper isupper x ->
               (x \notin keys c ->
                ~~ s
                && lt_scaled
                     (Z.of_nat (count (head_upper isupper) (dedup ts)))
                     (Z.pos m * Z.of_nat (size (dedup ts))) e)
               /\ (~~ s
                   && le_scaled
                        (Z.of_nat (count (head_upper isupper) (dedup ts))
                         * (2 ^ 52 + 1))
                        (Z.pos m * Z.of_nat (size (dedup ts))) (e + 52) ->
                   x \notin keys c))
  /\ (forall (char : eqType) (isupper : char -> bool)
             (ts : seq (token char)),
        [::] \notin ts ->
        (Z.of_nat (size (dedup ts)) < 2 ^ 53)%Z ->
        exists c,
          drop_capitalized isupper (Float (S754_infinity false)) (Counter ts)
          = Ok c
          /\ forall x, x \in ts -> head_upper isupper x -> x \notin keys c)
  /\ (lt_scaled 4 (7205759403792794 * 5) (-53)
      /\ sample_tokens ascii_isupper 10 (Float float_0_8)
           [seq tok s | s <- [:: "A"; "B"; "C"; "D"; "e"]%string]
         = Ok [seq tok s | s <- [:: "A"; "B"; "C"; "D"; "e"]%string])
  /\ (forall (char : eqType) (isupper : char -> bool) t n
             (ts : seq (token char)),
        num_gt_zero t -> [::] \in ts ->
        sample_tokens isupper n t ts = Raise IndexError)
  /\ (forall t,
        num_gt_zero t
        = match t with
          | Int z => (0 <? z)%Z
          | Float (S754_finite s _ _) => ~~ s
          | Float (S754_infinity s) => ~~ s
          | Float _ => false
          end)
  /\ (forall (char : eqType) (isupper : char -> bool) t n
             (ts : seq (token char)),
        ~~ num_gt_zero t ->
        drop_capitalized isupper t (Counter ts) = Ok (Counter ts)
        /\ sample_tokens isupper n t ts
           = Ok [seq it.1 | it <- most_common n (Counter ts)])
  /\ sample_tokens ascii_isupper 10 (Float float_0_8)
       [seq tok s | s <- [:: "Apple"; "apple"; "apple"; "Banana"; "cat"]%string]
     = Ok [seq tok s | s <- [:: "apple"; "cat"]%string].
Proof.
have A (char : eqType) (isupper : char -> bool) t n (ts : seq (token char)) :
    [::] \notin ts ->
    exists c,
      [/\ drop_capitalized isupper t (Counter ts) = Ok c,
          sample_tokens isupper n t ts =
            Ok [seq it.1 | it <- most_common n c],
          forall x, x \in ts -> head_upper isupper x ->
            (x \notin keys c)
            = num_gt_zero t
              && len_lt_times (count (head_upper isupper) (dedup ts)) t
                              (size (dedup ts)),
          forall x, x \in ts -> ~~ head_upper isupper x -> x \in keys c
        & forall x, x \in keys c -> counter_get c x = count_mem x ts].
  move=> ne.
  have ok : ([::] \notin ts) || ~~ num_gt_zero t by rewrite ne.
  pose p x := ~~ (filter_applies isupper t ts && head_upper isupper x).
  exists [seq it <- Counter ts | p it.1]; split.
  - exact: drop_capitalized_Counter.
  - exact: sample_tokens_Counter.
  - move=> x xts up; rewrite (keys_filter_Counter ts p) mem_filter mem_dedup.
    by rewrite xts andbT /p up andbT negbK.
  - move=> x xts /negbTE up.
    by rewrite (keys_filter_Counter ts p) mem_filter mem_dedup xts /p up andbF.
  - move=> x; rewrite (keys_filter_Counter ts p) mem_filter mem_dedup.
    by rewrite (counter_get_filter_Counter ts p) andbC => ->.
split; first exact: A.
split.
  move=> char isupper z ts ne.
  have [c [dc _ rm _ _]] := A char isupper (Int z) 0%Z ts ne.
  by exists c; split.
split.
  move=> char isupper s m e ts ne d53.
  have [c [dc _ rm _ _]] :=
    A char isupper (Float (S754_finite s m e)) 0%Z ts ne.
  exists c; split=> // x xts up; rewrite (rm x xts up) num_gt_zero_finite.
  have k0 : 0 < count (head_upper isupper) (dedup ts).
    by rewrite -has_count; apply/hasP; exists x; rewrite ?mem_dedup.
  have k53 : (Z.of_nat (count (head_upper isupper) (dedup ts)) < 2 ^ 53)%Z.
    apply: Z.le_lt_trans d53; apply: (proj1 (Nat2Z.inj_le _ _)).
    exact/leP/count_size.
  have [S C] := len_lt_times_float m e k53 d53.
  case: s {dc rm} => [|]; first by split.
  by cbn [negb andb]; split; [move/S | exact: C].
split.
  move=> char isupper ts ne d53.
  have [c [dc _ rm _ _]] :=
    A char isupper (Float (S754_infinity false)) 0%Z ts ne.
  exists c; split=> // x xts up; rewrite (rm x xts up) len_lt_times_inf //.
  by rewrite lt0n size_eq0; apply: contraTneq xts => e0; rewrite -mem_dedup e0.
split; first by split; vm_compute.
split.
  by move=> char isupper t n ts; exact: sample_tokens_raises.
split.
  by case=> [z|[s|s| |s m e]] //; rewrite num_gt_zero_finite.
split.
  move=> char isupper t n ts le0.
  by rewrite /sample_tokens drop_capitalized_off.
by vm_compute.
Qed.

(** The statement C2 on three distinct tokens, one of them capitalised: it
    is removed under the threshold 0.8, since 1 * (1 + 2 ^ -52) <= 0.8 * 3,
    and under the [int] threshold 1, since 1 < 1 * 3; and with an empty
    token in the input the call raises. *)
Lemma capitalized_filter_iff_witness :
  [/\ [::] \notin [seq tok s | s <- [:: "Apple"; "apple"; "cat"]%string],
      (Z.of_nat
         (size (dedup [seq tok s | s <- [:: "Apple"; "apple"; "cat"]%string]))
       < 2 ^ 53)%Z,
      exists c,
        drop_capitalized ascii_isupper (Float float_0_8)
          (Counter [seq tok s | s <- [:: "Apple"; "apple"; "cat"]%string])
        = Ok c
        /\ tok "Apple" \notin keys c,
      exists c,
        drop_capitalized ascii_isupper (Int 1)
          (Counter [seq tok s | s <- [:: "Apple"; "apple"; "cat"]%string])
        = Ok c
        /\ tok "Apple" \notin keys c
    & sample_tokens ascii_isupper 10 (Float float_0_8) [:: tok "Apple"; [::]]
      = Raise IndexError].
Proof.
have [_ [ints [floats [_ [_ [raises _]]]]]] := capitalized_filter_iff.
split.
- by [].
- by [].
- have [] := floats _ ascii_isupper false 7205759403792794%positive (-53)%Z
               [seq tok s | s <- [:: "Apple"; "apple"; "cat"]%string].
  + by [].
  + by [].
  move=> c [dc rm]; exists c; split; first exact: dc.
  have [_ ] := rm (tok "Apple") isT isT.
  by apply.
- have [] := ints _ ascii_isupper 1%Z
               [seq tok s | s <- [:: "Apple"; "apple"; "cat"]%string].
    by [].
  move=> c [dc rm]; exists c; split; first exact: dc.
  by rewrite (rm (tok "Apple") isT isT).
- exact: raises.
Defined.

(** Where the statement of C2 does not hold as the specification has it.  A
    sequence with an empty token makes the call raise [IndexError] under a
    positive threshold: nothing is removed, although 1 capitalised token is
    fewer than 0.8 times 2 tokens.  And 4 capitalised tokens out of 5 stay
    under the threshold 0.8, although the value of that float,
    7205759403792794 * 2 ^ -53, times 5 is more than 4: the binary64 product
    is 4.0. *)
Lemma capitalized_filter_counterexample :
  (lt_scaled 1 (7205759403792794 * 2) (-53)
   /\ sample_tokens ascii_isupper 10 (Float float_0_8) [:: tok "Apple"; [::]]
      = Raise IndexError)
  /\ (lt_scaled 4 (7205759403792794 * 5) (-53)
      /\ sample_tokens ascii_isupper 10 (Float float_0_8)
           [seq tok s | s <- [:: "A"; "B"; "C"; "D"; "e"]%string]
         = Ok [seq tok s | s <- [:: "A"; "B"; "C"; "D"; "e"]%string]).
Proof. by split; split; vm_compute. Qed.

(** C3.  When the call returns (no empty token, or a threshold that is not
    positive), the sample holds distinct tokens, at most [sample_size] of
    them for a sample size that is not negative, and exactly that many when
    enough tokens survive the filter (none for a negative size); they are
    surviving tokens, in rank order (more frequent first, and among equally frequent tokens the
    one first seen earlier first), and each ranks before every surviving
    token left out. *)
Theorem sample_tokens_ranked (char : eqType) (isupper : char -> bool) t n
    (ts : seq (token char)) :
  ([::] \notin ts) || ~~ num_gt_zero t ->
  exists out,
    [/\ sample_tokens isupper n t ts = Ok out,
        uniq out,
        ((0 <= n)%Z -> (Z.of_nat (size out) <= n)%Z)
        /\ size out = minn (Z.to_nat n) (size (surviving isupper t ts)),
        {subset out <= surviving isupper t ts}
        /\ pairwise (ranks_before ts) out
      & forall x y, x \in out -> y \in surviving isupper t ts ->
                    y \notin out -> ranks_before ts x y].
Proof.
move=> ok; rewrite sample_tokens_Counter //.
set p := fun x => ~~ (filter_applies isupper t ts && head_upper isupper x).
have [uo so sub rk top] := most_common_ranked ts p n.
eexists; split; first by [].
- exact: uo.
- split; last exact: so.
  rewrite so => n0.
  have /leP := geq_minl (Z.to_nat n) (size [seq x <- dedup ts | p x]).
  lia.
- by split; [exact: sub | exact: rk].
- exact: top.
Qed.

(** The statement C3 at a sample of size 2 out of three distinct tokens. *)
Lemma sample_tokens_ranked_witness :
  exists out,
    sample_tokens ascii_isupper 2 (Int 0)
      [seq tok s | s <- [:: "cat"; "apple"; "bee"; "apple"]%string] = Ok out
    /\ size out = 2.
Proof.
have [] := @sample_tokens_ranked _ ascii_isupper (Int 0) 2%Z
             [seq tok s | s <- [:: "cat"; "apple"; "bee"; "apple"]%string].
  by [].
by move=> out [eo _ [_ so] _ _]; exists out.
Defined.

(** C10.  With a positive threshold an empty token makes the call raise
    [IndexError]; without empty tokens, or with a threshold that is not
    positive, the call returns a sample. *)
Theorem sample_tokens_needs_nonempty (char : eqType) (isupper : char -> bool) :
  (forall n t (ts : seq (token char)),
      num_gt_zero t -> [::] \in ts ->
      sample_tokens isupper n t ts = Raise IndexError)
  /\ (forall n t (ts : seq (token char)),
        [::] \notin ts -> is_ok (sample_tokens isupper n t ts))
  /\ (forall n t (ts : seq (token char)),
        ~~ num_gt_zero t -> is_ok (sample_tokens isupper n t ts)).
Proof.
split; first by move=> n t ts; exact: sample_tokens_raises.
split=> n t ts h; rewrite sample_tokens_Counter ?h ?orbT //.
Qed.

(** The statement C10 with the default threshold and an empty token. *)
Lemma sample_tokens_needs_nonempty_witness :
  sample_tokens ascii_isupper 100 (Float float_0_8)
    [:: tok "Apple"; [::]; tok "cat"] = Raise IndexError
  /\ is_ok (sample_tokens ascii_isupper 100 (Float float_0_8)
              [:: tok "Apple"; tok "cat"])
  /\ is_ok (sample_tokens ascii_isupper 100 (Int 0)
              [:: tok "Apple"; [::]; tok "cat"]).
Proof.
have [raises [nonempty off]] := sample_tokens_needs_nonempty ascii_isupper.
split; first exact: raises.
by split; [exact: nonempty | exact: off].
Defined.

(** C8.  [sample_text] is [sample_tokens] after the tokenizer's
    [split_text], for any sampler object and for the two concrete classes. *)
Theorem sample_text_composition (char : eqType) (isupper : char -> bool) :
  (forall (self : BaseTokenSampler char) txt,
      sample_text self txt
      = sample_tokens_method self (split_text (_tokenizer self) txt))
  /\ (forall tokenizer n t txt,
        sample_text (MostCommonTokenSampler isupper tokenizer n t) txt
        = sample_tokens isupper n t (split_text tokenizer txt))
  /\ (forall tokenizer n t txt,
        sample_text (RelaxedMostCommonTokenSampler isupper tokenizer n t) txt
        = sample_tokens isupper n t (split_text tokenizer txt)).
Proof. by []. Qed.

(** ** The working-set dictionary *)

Section DictTheory.

Implicit Types (d : seq (lang * dictionary)) (k l : lang) (v : dictionary).

Lemma dict_keys_rcons d k v : dict_keys (rcons d (k, v)) = rcons (dict_keys d) k.
Proof. by rewrite /dict_keys map_rcons. Qed.

Lemma dict_keys_pop d k :
  dict_keys (dict_pop d k) = [seq l <- dict_keys d | l != k].
Proof. by rewrite /dict_keys /dict_pop filter_map. Qed.

Lemma dict_keys_behead d : dict_keys (behead d) = behead (dict_keys d).
Proof. by case: d. Qed.

Lemma dict_get_none d k : (dict_get d k == None) = (k \notin dict_keys d).
Proof.
elim: d => [|[k' v] d IH] //=.
by rewrite inE negb_or [k == k']eq_sym; case: (k' == k).
Qed.

Lemma dict_get_some d k v : dict_get d k = Some v -> k \in dict_keys d.
Proof.
by move=> e; apply/negPn; rewrite -dict_get_none e.
Qed.

Lemma dict_keys_set d k v :
  dict_keys (dict_set d k v) =
  if k \in dict_keys d then dict_keys d else rcons (dict_keys d) k.
Proof.
rewrite /dict_keys; elim: d => [|[k' v'] d IH] //=.
rewrite inE [k == k']eq_sym; case: (k' == k) => //=.
by rewrite IH; case: ifP.
Qed.

End DictTheory.

(** ** The wrapper of [functools.lru_cache] *)

Section LruTheory.

Variable package_path : String.string -> String.string.
Variable lzma_open : String.string -> outcome lzma_file.
Variable pickle_load : lzma_file -> outcome pickled.

Local Notation loader :=
  (_load_dictionary_from_disk package_path lzma_open pickle_load).
Local Notation lru_call :=
  (lru_call package_path lzma_open pickle_load).

Implicit Types (c : lru_cache) (k x y : lang) (cs ks : seq lang).

Lemma lru_call_maxsize c k : maxsize (lru_call c k).2 = maxsize c.
Proof.
rewrite /lru_call.
case: (maxsize c) => [[|n]|] //; case: (dict_get _ _) => //;
  case: (loader k) => // d; by case: ifP.
Qed.

Lemma lru_call_calls c k : calls (lru_call c k).2 = k :: calls c.
Proof.
rewrite /lru_call.
case: (maxsize c) => [[|n]|] //; case: (dict_get _ _) => //;
  case: (loader k) => // d; by case: ifP.
Qed.

(** A call is a hit or a miss; only a miss runs the loader. *)
Lemma lru_call_counts c k :
  let c' := (lru_call c k).2 in
  if (k \in dict_keys (cache_entries c)) && (maxsize c != Some 0)
  then hits c' = (hits c).+1 /\ misses c' = misses c
  else hits c' = hits c /\ misses c' = (misses c).+1.
Proof.
rewrite /lru_call /=.
case: (maxsize c) => [[|n]|] /=; rewrite ?andbF ?andbT //;
  case e: (dict_get _ _) => [d|]; rewrite ?(dict_get_some e) //;
  move/eqP: e; rewrite dict_get_none => /negbTE -> //;
  case: (loader k) => // d; by case: ifP.
Qed.

(** The result is the cached dictionary on a hit and the loader's result,
    value or exception, on a miss. *)
Lemma lru_call_result c k :
  (lru_call c k).1 =
  if maxsize c == Some 0 then loader k
  else if dict_get (cache_entries c) k is Some d then Ok d else loader k.
Proof.
rewrite /lru_call.
case: (maxsize c) => [[|n]|] //=; case: (dict_get _ _) => //;
  case: (loader k) => // d; by case: ifP.
Qed.

Lemma called_after_cons cs k x y :
  x != k -> called_after (k :: cs) x y = (y == k) || called_after cs x y.
Proof.
rewrite /called_after /= ![k == _]eq_sym => /negbTE ->.
by case: (y == k).
Qed.

Lemma pairwise_called_later cs ks k :
  k \notin ks -> pairwise (called_after cs) ks ->
  pairwise (called_after (k :: cs)) ks.
Proof.
move=> kks; apply: sub_in_pairwise (allss ks) => x y xks _.
have {}xks : x \in ks by [].
have xk : x != k by apply: contraNneq kks => <-.
by rewrite (called_after_cons _ _ xk) => ->; rewrite orbT.
Qed.

Lemma pairwise_called_rcons cs ks ks0 k :
  subseq ks0 ks -> k \notin ks0 -> pairwise (called_after cs) ks ->
  pairwise (called_after (k :: cs)) (rcons ks0 k).
Proof.
move=> sub kks pw; rewrite pairwise_rcons; apply/andP; split.
  apply/allP => x xks.
  have xk : x != k by apply: contraNneq kks => <-.
  by rewrite (called_after_cons _ _ xk) eqxx.
exact/pairwise_called_later/(subseq_pairwise sub).
Qed.

Lemma all_called_later cs ks k :
  all (mem cs) ks -> all (mem (k :: cs)) ks.
Proof.
by apply: sub_all => x /= xcs; rewrite inE xcs orbT.
Qed.

Lemma lru_inv_rcons n cs ks ks0 k :
  subseq ks0 ks -> k \notin ks0 -> size ks0 < n ->
  [&& uniq ks, size ks <= n, all (mem cs) ks & pairwise (called_after cs) ks] ->
  [&& uniq (rcons ks0 k), size (rcons ks0 k) <= n,
      all (mem (k :: cs)) (rcons ks0 k)
    & pairwise (called_after (k :: cs)) (rcons ks0 k)].
Proof.
move=> sub kks sz /and4P[uks _ allks pw].
rewrite rcons_uniq kks (subseq_uniq sub uks) size_rcons sz /=.
rewrite all_rcons /= inE eqxx /= (pairwise_called_rcons sub kks pw) andbT.
apply: all_called_later; apply/allP => x /(mem_subseq sub).
exact: (allP allks).
Qed.

(** The keys of the cache after a call. *)
Lemma lru_call_keys c k :
  let ks := dict_keys (cache_entries c) in
  dict_keys (cache_entries (lru_call c k).2) =
  match maxsize c with
  | Some 0 => ks
  | None =>
      if (k \notin ks) && is_ok (loader k) then rcons ks k else ks
  | Some n =>
      if k \in ks then rcons [seq l <- ks | l != k] k
      else if is_ok (loader k) then
             rcons (if size ks < n then ks else behead ks) k
           else ks
  end.
Proof.
rewrite /lru_call /=.
case: (maxsize c) => [[|n]|] //=.
- case eg: (dict_get _ _) => [d|] /=.
    by rewrite (dict_get_some eg) dict_keys_rcons dict_keys_pop.
  move/eqP: eg; rewrite dict_get_none => /negbTE ->.
  case: (loader k) => [d|e] //=; rewrite size_map.
  by case: ifP => _ /=; rewrite dict_keys_rcons ?dict_keys_behead.
- case eg: (dict_get _ _) => [d|] /=; first by rewrite (dict_get_some eg).
  move/eqP: eg; rewrite dict_get_none => -> /=.
  by case: (loader k) => [d|e] //=; rewrite dict_keys_rcons.
Qed.

Lemma lru_call_keys_sub c k x :
  x \in dict_keys (cache_entries (lru_call c k).2) ->
  x \in k :: dict_keys (cache_entries c).
Proof.
rewrite lru_call_keys inE.
case: (maxsize c) => [[|n]|]; first by move->; rewrite orbT.
- case: ifP => _.
    by rewrite mem_rcons inE mem_filter => /orP[->|/andP[_ ->]] //; rewrite orbT.
  case: ifP => _; last by move->; rewrite orbT.
  by rewrite mem_rcons inE; case: ifP => _ /orP[->|h] //;
    rewrite ?h ?(mem_behead h) orbT.
- by case: ifP => _; rewrite ?mem_rcons ?inE // => ->; rewrite orbT.
Qed.

Lemma size_dict_keys (d : seq (lang * dictionary)) : size (dict_keys d) = size d.
Proof. exact: size_map. Qed.

(** Every call keeps the invariant of a size-limited cache. *)
Lemma lru_call_inv c k : lru_inv c -> lru_inv (lru_call c k).2.
Proof.
rewrite /lru_inv lru_call_maxsize lru_call_calls -!size_dict_keys.
rewrite lru_call_keys; case: (maxsize c) => [n|] //.
set ks := dict_keys (cache_entries c) => inv.
have keep : k \notin ks ->
    [&& uniq ks, size ks <= n, all (mem (k :: calls c)) ks
      & pairwise (called_after (k :: calls c)) ks].
  move=> kks; move: inv => /and4P[-> -> allks pw] /=.
  by rewrite all_called_later // pairwise_called_later.
case: n inv keep => [|n] inv keep.
  apply: keep; have /and4P[_ sz0 _ _] := inv.
  by move: sz0; rewrite leqn0 size_eq0 => /eqP ->.
have /and4P[uks sz _ _] := inv.
case: (boolP (k \in ks)) => [kks|kks].
  apply: lru_inv_rcons inv; first exact: filter_subseq.
    by rewrite mem_filter eqxx.
  rewrite -rem_filter // size_rem //.
  by apply: leq_trans sz; rewrite ltn_predL; case: (ks) kks.
case: (is_ok (loader k)); last exact: keep.
case: ifP => [lt|_]; first exact: lru_inv_rcons inv.
apply: lru_inv_rcons inv.
- by case: (ks) => //= x s; exact: subseq_cons.
- by apply: contra kks; exact: mem_behead.
- by rewrite size_behead ltnS; case: (size ks) sz.
Qed.

End LruTheory.

(** ** The factory *)

Section FactoryTheory.

Variable package_path : String.string -> String.string.
Variable lzma_open : String.string -> outcome lzma_file.
Variable pickle_load : lzma_file -> outcome pickled.
Variable LANGLIST : seq lang.

Local Notation loader :=
  (_load_dictionary_from_disk package_path lzma_open pickle_load).
Local Notation lru_call :=
  (lru_call package_path lzma_open pickle_load).
Local Notation load_langs :=
  (load_langs package_path lzma_open pickle_load LANGLIST).
Local Notation get_dictionaries :=
  (get_dictionaries package_path lzma_open pickle_load LANGLIST).
Local Notation run_calls :=
  (run_calls package_path lzma_open pickle_load LANGLIST).

Implicit Types (self : factory) (l : lang) (todo langs : seq lang).

(** A tuple is never equal to a list: the test of line 47 always fails. *)
Lemma same_languages_false self langs : same_languages self langs = false.
Proof. by rewrite /same_languages /py_eq andbF. Qed.

Lemma load_langs_cons self l todo :
  load_langs self (l :: todo) =
  if l \notin LANGLIST then load_langs (log self (LogError l)) todo
  else
    let self1 :=
      set_loader (log self (LogDebug l)) (lru_call (_loader self) l).2 in
    match (lru_call (_loader self) l).1 with
    | Ok d => load_langs (set_data self1 l d) todo
    | Raise e => (Raise e, self1)
    end.
Proof. by rewrite /=; case: ifP => // _; case: (lru_call _ _) => [[d|e] c]. Qed.

(** On a tuple the call always rebuilds the working set: a new [dict], then
    the loading loop over the whole request. *)
Lemma get_dictionaries_tuple self langs :
  get_dictionaries self (PyTuple langs) =
  let r := load_langs (reset_data self) langs in
  (if r.1 is Raise e then Raise e else Ok (_data r.2), r.2).
Proof.
rewrite /get_dictionaries /= same_languages_false /= filter_predT.
by case: (load_langs _ _) => [[u|e] s].
Qed.

Lemma get_dictionaries_state self langs :
  (get_dictionaries self (PyTuple langs)).2
  = (load_langs (reset_data self) langs).2.
Proof. by rewrite get_dictionaries_tuple. Qed.

Lemma get_dictionaries_result self langs :
  (get_dictionaries self (PyTuple langs)).1
  = if (load_langs (reset_data self) langs).1 is Raise e then Raise e
    else Ok (_data (load_langs (reset_data self) langs).2).
Proof. by rewrite get_dictionaries_tuple. Qed.

Lemma get_dictionaries_str self s :
  get_dictionaries self (PyStr s) = get_dictionaries self (PyTuple [:: s]).
Proof. by []. Qed.

Lemma get_dictionaries_other self v :
  ~~ isinstance_str v -> ~~ isinstance_tuple v ->
  get_dictionaries self v = (Raise TypeError, self).
Proof. by case: v. Qed.

(** The loop leaves the identity of the working set and the allocator
    alone. *)
Lemma load_langs_obj_id self todo :
  obj_id (_data (load_langs self todo).2) = obj_id (_data self).
Proof.
elim: todo self => [|l todo IH] self //; rewrite load_langs_cons.
case: ifP => _; first by rewrite IH.
by case: (lru_call _ _).1 => [d|e] //=; rewrite IH.
Qed.

Lemma load_langs_next_id self todo :
  next_id (load_langs self todo).2 = next_id self.
Proof.
elim: todo self => [|l todo IH] self //; rewrite load_langs_cons.
case: ifP => _; first by rewrite IH.
by case: (lru_call _ _).1 => [d|e] //=; rewrite IH.
Qed.

Lemma load_langs_maxsize self todo :
  maxsize (_loader (load_langs self todo).2) = maxsize (_loader self).
Proof.
elim: todo self => [|l todo IH] self //; rewrite load_langs_cons.
case: ifP => _; first by rewrite IH.
by case: (lru_call _ _).1 => [d|e] /=; rewrite ?IH /= lru_call_maxsize.
Qed.

Lemma load_langs_inv self todo :
  lru_inv (_loader self) -> lru_inv (_loader (load_langs self todo).2).
Proof.
elim: todo self => [|l todo IH] self //; rewrite load_langs_cons => inv.
case: ifP => _; first exact: IH.
have inv' := lru_call_inv package_path lzma_open pickle_load l inv.
by case: (lru_call _ _).1 => [d|e] //=; apply: IH.
Qed.

(** The loader is called only for supported languages, and an exception of
    the loop is an exception of the loader on one of them. *)
Lemma load_langs_raises self todo e :
  (load_langs self todo).1 = Raise e ->
  exists l, [/\ l \in todo, l \in LANGLIST & loader l = Raise e].
Proof.
elim: todo self => [|l todo IH] self //; rewrite load_langs_cons.
case: ifP => [_ /IH[l' [? ? ?]]|/negbFE sup].
  by exists l'; split=> //; rewrite inE orbC; apply/orP; left.
case er: (lru_call _ _).1 => [d|e'] /=.
  move=> /IH[l' [? ? ?]].
  by exists l'; split=> //; rewrite inE orbC; apply/orP; left.
move=> [<-]; exists l; split=> //; first exact: mem_head.
move: er; rewrite lru_call_result.
by case: ifP => // _; case: (dict_get _ _).
Qed.

Lemma foldl_add_key (s : seq lang) : foldl add_key [::] s = dedup s.
Proof.
elim/last_ind: s => [|s x IH] //.
by rewrite foldl_rcons IH /add_key mem_dedup dedup_rcons.
Qed.

(** The loop when every supported language of the list can be loaded: it
    ends normally, the keys are those of the supported languages in the
    order met, and each language met has its log record. *)
Lemma load_langs_ok self todo :
  {in todo, forall l, l \in LANGLIST -> is_ok (loader l)} ->
  [/\ (load_langs self todo).1 = Ok tt,
      dict_keys (items (_data (load_langs self todo).2)) =
        foldl add_key (dict_keys (items (_data self)))
              [seq l <- todo | l \in LANGLIST]
    & logged (load_langs self todo).2 =
        logged self
        ++ [seq (if l \in LANGLIST then LogDebug l else LogError l) | l <- todo]].
Proof.
elim: todo self => [|l todo IH] self ok; first by rewrite /= cats0.
have ok' : {in todo, forall l, l \in LANGLIST -> is_ok (loader l)}.
  by move=> l' l'todo sup'; apply: ok sup'; rewrite inE l'todo orbT.
rewrite load_langs_cons /=; case: ifP => [/negbTE ->|/negbFE sup].
  by have [-> -> ->] := IH (log self (LogError l)) ok'; rewrite /= -cats1 -catA.
rewrite sup /=.
have : is_ok (lru_call (_loader self) l).1.
  rewrite lru_call_result; case: ifP => _; first exact: ok (mem_head _ _) sup.
  by case: (dict_get _ _) => [d|] //; exact: ok (mem_head _ _) sup.
case: (lru_call _ _).1 => [d|e] //= _.
have [-> -> ->] :=
  IH (set_data (set_loader (log self (LogDebug l))
                           (lru_call (_loader self) l).2) l d) ok'.
by rewrite /= dict_keys_set -/(add_key _ _) -cats1 -catA.
Qed.

Lemma load_langs_supported self todo :
  all (mem LANGLIST) (dict_keys (cache_entries (_loader self))) ->
  all (mem LANGLIST)
      (dict_keys (cache_entries (_loader (load_langs self todo).2))).
Proof.
elim: todo self => [|l todo IH] self //; rewrite load_langs_cons => sup.
case: ifP => [_|/negbFE lsup]; first exact: IH.
have sup' : all (mem LANGLIST)
                (dict_keys (cache_entries (lru_call (_loader self) l).2)).
  apply/allP => x /lru_call_keys_sub; rewrite inE => /orP[/eqP -> //|].
  exact: (allP sup).
by case: (lru_call _ _).1 => [d|e] //=; apply: IH.
Qed.

Lemma get_dictionaries_inv self v :
  factory_inv LANGLIST self -> factory_inv LANGLIST (get_dictionaries self v).2.
Proof.
case: v => [|z|s|langs|langs] //;
  rewrite ?get_dictionaries_str get_dictionaries_state => /andP[inv sup];
  by rewrite /factory_inv load_langs_inv // load_langs_supported.
Qed.

Lemma get_dictionaries_maxsize self v :
  maxsize (_loader (get_dictionaries self v).2) = maxsize (_loader self).
Proof.
by case: v => [|z|s|langs|langs] //;
  rewrite ?get_dictionaries_str get_dictionaries_state load_langs_maxsize.
Qed.

Lemma run_calls_inv self requests :
  factory_inv LANGLIST self -> factory_inv LANGLIST (run_calls self requests).
Proof.
elim: requests self => [|v requests IH] self //= inv.
exact/IH/get_dictionaries_inv.
Qed.

Lemma run_calls_maxsize self requests :
  maxsize (_loader (run_calls self requests)) = maxsize (_loader self).
Proof.
elim: requests self => [|v requests IH] self //=.
by rewrite IH get_dictionaries_maxsize.
Qed.

(** A request for one supported language is one call of the wrapper. *)
Lemma get_dictionaries_one self l :
  l \in LANGLIST ->
  _loader (get_dictionaries self (PyStr l)).2 = (lru_call (_loader self) l).2
  /\ (get_dictionaries self (PyStr l)).1 =
     if (lru_call (_loader self) l).1 is Ok d
     then Ok (DictObj (next_id self) [:: (l, d)])
     else if (lru_call (_loader self) l).1 is Raise e then Raise e
     else Raise TypeError.
Proof.
move=> sup; rewrite get_dictionaries_str get_dictionaries_state.
rewrite get_dictionaries_result load_langs_cons sup /=.
by case: (lru_call _ _).1.
Qed.

(** The working set is always an object created earlier than the next one. *)
Lemma get_dictionaries_fresh self v :
  obj_id (_data self) < next_id self ->
  obj_id (_data (get_dictionaries self v).2) < next_id (get_dictionaries self v).2.
Proof.
by case: v => [|z|s|langs|langs] //;
  rewrite ?get_dictionaries_str get_dictionaries_state load_langs_obj_id
          load_langs_next_id /=.
Qed.

Lemma run_calls_fresh self requests :
  obj_id (_data self) < next_id self ->
  obj_id (_data (run_calls self requests)) < next_id (run_calls self requests).
Proof.
elim: requests self => [|v requests IH] self //= fresh.
exact/IH/get_dictionaries_fresh.
Qed.


End FactoryTheory.

(** ** Statements on the dictionary factory *)

Section FactoryClaims.

Variable package_path : String.string -> String.string.
Variable lzma_open : String.string -> outcome lzma_file.
Variable pickle_load : lzma_file -> outcome pickled.
Variable LANGLIST : seq lang.

Local Notation loader :=
  (_load_dictionary_from_disk package_path lzma_open pickle_load).
Local Notation lru_call :=
  (lru_call package_path lzma_open pickle_load).
Local Notation get_dictionaries :=
  (get_dictionaries package_path lzma_open pickle_load LANGLIST).
Local Notation run_calls :=
  (run_calls package_path lzma_open pickle_load LANGLIST).

(** C6.  An argument that is neither a string nor a tuple, [None]
    included, makes the call raise [TypeError] and leaves the factory as it
    was: no call of the loader, no new working set, no log record.  A string
    is handled as the tuple of that one string. *)
Theorem get_dictionaries_type_error :
  (forall self v,
      ~~ isinstance_str v -> ~~ isinstance_tuple v ->
      get_dictionaries self v = (Raise TypeError, self))
  /\ (forall self, get_dictionaries self PyNone = (Raise TypeError, self))
  /\ (forall self s,
        get_dictionaries self (PyStr s)
        = get_dictionaries self (PyTuple [:: s])).
Proof.
split; first by move=> self v; exact: get_dictionaries_other.
by split.
Qed.

(** C9.  With the empty tuple the call returns the working set, which is a
    new empty mapping; the wrapped loader is not called (its cache and its
    counters of hits and misses are as before) and nothing is logged. *)
Theorem get_dictionaries_empty self :
  let r := get_dictionaries self (PyTuple [::]) in
  [/\ r.1 = Ok (_data r.2),
      items (_data r.2) = [::],
      _loader r.2 = _loader self
    & logged r.2 = logged self].
Proof. by rewrite get_dictionaries_tuple. Qed.

(** C5.  When each supported language of the request can be loaded, the
    call returns the working set; its keys are the supported languages of
    the request, each once, in the order of the request (the filtered
    request itself when no language is repeated), and each language of the
    request is logged, the unsupported ones as errors.  Whatever the
    request, an exception of the call is an exception of the loader on a
    supported language of the request. *)
Theorem get_dictionaries_mixed :
  (forall self langs,
      {in langs, forall l, l \in LANGLIST -> is_ok (loader l)} ->
      let r := get_dictionaries self (PyTuple langs) in
      [/\ r.1 = Ok (_data r.2),
          dict_keys (items (_data r.2)) =i [seq l <- langs | l \in LANGLIST],
          dict_keys (items (_data r.2))
          = dedup [seq l <- langs | l \in LANGLIST],
          uniq langs ->
          dict_keys (items (_data r.2)) = [seq l <- langs | l \in LANGLIST]
        & logged r.2
          = logged self
            ++ [seq (if l \in LANGLIST then LogDebug l else LogError l)
               | l <- langs]])
  /\ (forall self langs e,
        (get_dictionaries self (PyTuple langs)).1 = Raise e ->
        exists l, [/\ l \in langs, l \in LANGLIST & loader l = Raise e]).
Proof.
split=> [self langs ok r|self langs e].
  have [e1 e2 e3] :=
    load_langs_ok (LANGLIST := LANGLIST) (reset_data self) ok.
  have keys_r : dict_keys (items (_data r.2))
                = dedup [seq l <- langs | l \in LANGLIST].
    by rewrite /r get_dictionaries_state e2 /= foldl_add_key.
  split.
  - by rewrite /r get_dictionaries_result e1 get_dictionaries_state.
  - by move=> l; rewrite keys_r mem_dedup.
  - exact: keys_r.
  - by move=> u; rewrite keys_r dedup_id // filter_uniq.
  - by rewrite /r get_dictionaries_state e3.
rewrite get_dictionaries_result.
case er: (load_langs _ _ _ _ _ _).1 => [u|e'] // [<-].
exact: load_langs_raises er.
Qed.


(** C4.  After any sequence of calls on a factory built with capacity [N],
    the cache holds at most [N] dictionaries (none when [N] is negative),
    no language twice.
    When it holds [N] of them and a supported language that is not cached
    is requested and loads, the entry dropped is the one at the least
    recent end: every other cached language was called later than it.  The
    cache then holds the other languages and the new one, and the next
    request for the dropped language is a miss, which runs the loader. *)
Theorem lru_cache_bounded (N : Z) (requests : seq pyval) :
  let self := run_calls (DictionaryFactory (Some N)) requests in
  let c := _loader self in
  [/\ size (cache_entries c) <= Z.to_nat N,
      uniq (dict_keys (cache_entries c))
    & forall l d,
        size (cache_entries c) = Z.to_nat N -> (0 < N)%Z ->
        l \in LANGLIST -> l \notin dict_keys (cache_entries c) ->
        loader l = Ok d ->
        exists dropped rest,
          let self' := (get_dictionaries self (PyStr l)).2 in
          [/\ dict_keys (cache_entries c) = dropped :: rest,
              dropped \in calls c
              /\ {in rest, forall y, called_after (calls c) dropped y},
              dict_keys (cache_entries (_loader self')) = rcons rest l
            & misses (_loader (get_dictionaries self' (PyStr dropped)).2)
              = (misses (_loader self')).+1]].
Proof.
move=> self c.
have inv : factory_inv LANGLIST self.
  exact: run_calls_inv.
have em : maxsize c = Some (Z.to_nat N).
  rewrite /c /self run_calls_maxsize /=.
  by case: ifP => // /Z.ltb_lt lt; congr Some; lia.
move: inv; rewrite /factory_inv /lru_inv -/c em.
move=> /andP[/and4P[uks sz called pw] sup].
split=> // l d full Npos lsup miss ok.
case eks: (dict_keys (cache_entries c)) => [|dropped rest].
  move: full; rewrite -size_dict_keys eks /= => /esym/eqP.
  by rewrite -[0]/(Z.to_nat 0) => /eqP/Z2Nat.inj; lia.
exists dropped, rest; rewrite /=.
set self' := (get_dictionaries self (PyStr l)).2.
have keys' : dict_keys (cache_entries (_loader self')) = rcons rest l.
  rewrite /self' (proj1 (get_dictionaries_one _ _ _ _ lsup)) -/c.
  rewrite lru_call_keys em eks -eks (negbTE miss) ok /=.
  rewrite size_dict_keys full ltnn eks /=.
  by case: (Z.to_nat N) full => //; rewrite -size_dict_keys eks.
have dsup : dropped \in LANGLIST.
  by move: sup; rewrite eks /= => /andP[].
split=> //.
- move: called pw; rewrite eks /= => /andP[-> _] /andP[/allP pw _].
  by split.
- rewrite (proj1 (get_dictionaries_one _ _ _ _ dsup)).
  have := lru_call_counts package_path lzma_open pickle_load
            (_loader self') dropped.
  rewrite keys' mem_rcons inE.
  have -> : (dropped == l) = false.
    by apply/negbTE; apply: contraNneq miss => <-; rewrite eks mem_head.
  have -> : (dropped \in rest) = false.
    by apply/negbTE; move: uks; rewrite eks /= => /andP[].
  by case.
Qed.

End FactoryClaims.

(** The statement C6 at a list argument. *)
Lemma get_dictionaries_type_error_witness :
  example_get_dictionaries (DictionaryFactory default_cache_max_size)
    (PyList [:: "en"%string])
  = (Raise TypeError, DictionaryFactory default_cache_max_size).
Proof.
apply: (proj1 (get_dictionaries_type_error example_package_path
                 example_lzma_open example_pickle_load example_LANGLIST)).
- by [].
- by [].
Defined.

(** The statement C5 at a request with an unsupported code in the middle. *)
Lemma get_dictionaries_mixed_witness :
  dict_keys (items (_data (example_get_dictionaries
                              (DictionaryFactory default_cache_max_size)
                              (PyTuple [:: "en"; "xx"; "de"]%string)).2))
  = [:: "en"; "de"]%string.
Proof.
have ok : {in [:: "en"; "xx"; "de"]%string, forall l,
            l \in example_LANGLIST ->
            is_ok (_load_dictionary_from_disk example_package_path
                     example_lzma_open example_pickle_load l)}.
  by move=> l; rewrite !inE => /or3P[] /eqP ->.
have [_ _ _ keys_r _] :=
  proj1 (get_dictionaries_mixed example_package_path example_lzma_open
           example_pickle_load example_LANGLIST)
        (DictionaryFactory default_cache_max_size) _ ok.
exact: keys_r.
Defined.


(** The statement C4 at a cache of capacity 2 after requests for "en", "de"
    and "en" again, when "it" is requested: "de" is dropped, not "en". *)
Lemma lru_cache_bounded_witness :
  exists dropped rest,
    [/\ dropped = "de"%string /\ rest = [:: "en"%string],
        dict_keys (cache_entries (_loader
          (run_calls example_package_path example_lzma_open
             example_pickle_load example_LANGLIST
             (DictionaryFactory (Some 2%Z))
             [:: PyStr "en"%string; PyStr "de"%string; PyStr "en"%string])))
        = dropped :: rest
      & dict_keys (cache_entries (_loader
          (example_get_dictionaries
             (run_calls example_package_path example_lzma_open
                example_pickle_load example_LANGLIST
                (DictionaryFactory (Some 2%Z))
                [:: PyStr "en"%string; PyStr "de"%string; PyStr "en"%string])
             (PyStr "it"%string)).2))
        = rcons rest "it"%string].
Proof.
have [_ _ evict] :=
  @lru_cache_bounded example_package_path example_lzma_open
    example_pickle_load example_LANGLIST 2%Z
    [:: PyStr "en"%string; PyStr "de"%string; PyStr "en"%string].
have N2 : (0 < 2)%Z by lia.
have [||||dropped [rest [ek _ ek' _]]] :=
  evict "it"%string [:: ("houses", "house")%string] _ N2.
- by [].
- by [].
- by [].
- by [].
exists dropped, rest; split=> //.
have : [:: "de"; "en"]%string = dropped :: rest by rewrite -ek.
by case=> <- <-.
Defined.

(** C1 (not met by the code).  The test of line 47 compares a tuple with a
    list, which is false for every factory and every request; so each call
    with a tuple takes the slow path and returns a [dict] created by that
    call, never the working set the factory had.  When "en" is requested
    twice in succession, the second call returns another object than the
    first and calls the wrapped loader again, which counts a hit and
    records the call. *)
Theorem repeated_request_rebuilds :
  (forall self langs, same_languages self langs = false)
  /\ (forall package_path lzma_open pickle_load LANGLIST
             cache_max_size requests langs,
        let self :=
          run_calls package_path lzma_open pickle_load LANGLIST
            (DictionaryFactory cache_max_size) requests in
        let self' :=
          (get_dictionaries package_path lzma_open pickle_load LANGLIST
             self (PyTuple langs)).2 in
        obj_id (_data self') = next_id self
        /\ obj_id (_data self') != obj_id (_data self))
  /\ let first :=
       example_get_dictionaries (DictionaryFactory default_cache_max_size)
         (PyTuple [:: "en"%string]) in
     let second := example_get_dictionaries first.2 (PyTuple [:: "en"%string]) in
     [/\ first.1 = Ok (DictObj 1 [:: ("en", [:: ("houses", "house")])%string]),
         second.1 = Ok (DictObj 2 [:: ("en", [:: ("houses", "house")])%string]),
         hits (_loader first.2) = 0 /\ hits (_loader second.2) = 1
       & calls (_loader first.2) = [:: "en"%string]
         /\ calls (_loader second.2) = [:: "en"; "en"]%string].
Proof.
split; first exact: same_languages_false.
split; last by [].
move=> package_path lzma_open pickle_load LANGLIST N requests langs.
move=> self self'.
have -> : obj_id (_data self') = next_id self.
  by rewrite /self' get_dictionaries_state load_langs_obj_id.
split=> //; rewrite neq_ltn; apply/orP; right.
exact: run_calls_fresh.
Qed.

(** ** The model on small inputs *)

Example Counter_counts :
  Counter [:: tok "b"; tok "a"; tok "b"] = [:: (tok "b", 2); (tok "a", 1)].
Proof. by []. Qed.

(** Equal counts keep the order of first occurrence, and the sample size
    cuts the list. *)
Example sample_tokens_ties :
  sample_tokens ascii_isupper 2 (Int 0)
    [seq tok s | s <- [:: "b"; "a"; "c"; "c"; "a"]%string]
  = Ok [:: tok "a"; tok "c"].
Proof. by vm_compute. Qed.

Example sample_tokens_negative_size :
  sample_tokens ascii_isupper (-1) (Int 0) [:: tok "a"; tok "b"] = Ok [::].
Proof. by vm_compute. Qed.

(** Capitalised tokens are kept when they are not few: 4 of 4 distinct
    tokens is not less than 0.8 * 4. *)
Example sample_tokens_all_capitalized :
  sample_tokens ascii_isupper 10 (Float float_0_8)
    [seq tok s | s <- [:: "Haus"; "Baum"; "Haus"; "Auto"; "Berg"]%string]
  = Ok [seq tok s | s <- [:: "Haus"; "Baum"; "Auto"; "Berg"]%string].
Proof. by vm_compute. Qed.

(** The product of line 68 is a rounded binary64 product: [0.1 * 10] is
    [1.0], so one capitalised token among ten distinct ones is not fewer
    than that. *)
Remark threshold_product_is_rounded :
  float_mul float_0_1 (float_of_int 10) = float_of_int 1
  /\ len_lt_times 1 (Float float_0_1) 10 = false.
Proof. by vm_compute. Qed.

(** With capacity 2, after "en", "de", "en" the request for "it" drops
    "de", the language called least recently, not "en", the one loaded
    first. *)
Example lru_drops_least_recent :
  dict_keys (cache_entries (_loader
    (run_calls example_package_path example_lzma_open
       example_pickle_load example_LANGLIST
       (DictionaryFactory (Some 2%Z))
       [:: PyStr "en"; PyStr "de"; PyStr "en"; PyStr "it"]%string)))
  = [:: "en"; "it"]%string.
Proof. by vm_compute. Qed.

(** A failed load is not cached and the languages loaded before it stay in
    the working set the call leaves behind. *)
Example failed_load_leaves_partial_working_set :
  let r := example_get_dictionaries (DictionaryFactory default_cache_max_size)
             (PyTuple [:: "de"; "fr"; "en"]%string) in
  [/\ r.1 = Raise FileNotFoundError,
      dict_keys (items (_data r.2)) = [:: "de"%string],
      dict_keys (cache_entries (_loader r.2)) = [:: "de"%string]
    & misses (_loader r.2) = 2].
Proof. by vm_compute. Qed.

(** ** What every call of the wrapper keeps *)

Section CallsOfTheWrapper.

Variable package_path : String.string -> String.string.
Variable lzma_open : String.string -> outcome lzma_file.
Variable pickle_load : lzma_file -> outcome pickled.
Variable LANGLIST : seq lang.

Local Notation loader :=
  (_load_dictionary_from_disk package_path lzma_open pickle_load).
Local Notation lru_call :=
  (lru_call package_path lzma_open pickle_load).
Local Notation load_langs :=
  (load_langs package_path lzma_open pickle_load LANGLIST).
Local Notation get_dictionaries :=
  (get_dictionaries package_path lzma_open pickle_load LANGLIST).
Local Notation run_calls :=
  (run_calls package_path lzma_open pickle_load LANGLIST).
Local Notation cache_sound :=
  (cache_sound package_path lzma_open pickle_load).

Implicit Types (self : factory) (c : lru_cache) (l k : lang).
Implicit Types (todo langs : seq lang).

(** The factory calls the wrapper with supported languages only, so a
    property of the cache that such calls keep holds after the loop, after a
    call of [get_dictionaries] and after any number of them. *)
Section Kept.

Variable P : lru_cache -> Prop.
Hypothesis P_call : forall c k, k \in LANGLIST -> P c -> P (lru_call c k).2.

Lemma load_langs_kept self todo :
  P (_loader self) -> P (_loader (load_langs self todo).2).
Proof.
elim: todo self => [|l todo IH] self //; rewrite load_langs_cons => Pc.
case: ifP => [_|/negbFE sup]; first exact: IH.
have Pc' := P_call sup Pc.
by case: (lru_call _ _).1 => [d|e] //=; apply: IH.
Qed.

Lemma get_dictionaries_kept self v :
  P (_loader self) -> P (_loader (get_dictionaries self v).2).
Proof.
case: v => [|z|s|langs|langs] //;
  rewrite ?get_dictionaries_str get_dictionaries_state => Pc;
  exact: (load_langs_kept (self := reset_data self)).
Qed.

Lemma run_calls_kept self requests :
  P (_loader self) -> P (_loader (run_calls self requests)).
Proof.
elim: requests self => [|v requests IH] self //= Pc.
exact/IH/get_dictionaries_kept.
Qed.

End Kept.

Lemma dict_get_mem (d : seq (lang * dictionary)) k v :
  dict_get d k = Some v -> (k, v) \in d.
Proof.
elim: d => [|[k' v'] d IH] //=; rewrite inE.
case: (k' =P k) => [-> [->]|_ /IH ->]; first by rewrite eqxx.
by rewrite orbT.
Qed.

Lemma mem_dict_set (d : seq (lang * dictionary)) k v it :
  it \in dict_set d k v -> (it \in d) || (it == (k, v)).
Proof.
elim: d => [|[k' v'] d IH] /=; first by rewrite !inE.
case: (k' =P k) => [->|_]; rewrite !inE.
  by case/orP=> [->|->]; rewrite ?orbT.
by case/orP=> [->|/IH/orP[->|->]]; rewrite ?orbT.
Qed.

(** An entry of the cache after a call was there before, or is the loader's
    result for the key of the call. *)
Lemma lru_call_entries c k it :
  cache_sound c -> it \in cache_entries (lru_call c k).2 ->
  loader it.1 = Ok it.2.
Proof.
move=> sound; rewrite /lru_call.
have hit d : dict_get (cache_entries c) k = Some d -> loader k = Ok d.
  by move/dict_get_mem/sound.
case: (maxsize c) => [[|n]|] /=; first exact: sound.
- case eg: (dict_get _ _) => [d|] /=.
    rewrite mem_rcons inE => /orP[/eqP ->|]; first exact: hit.
    by rewrite mem_filter => /andP[_]; exact: sound.
  case el: (loader k) => [d|e] /=; last exact: sound.
  by case: ifP => _ /=; rewrite mem_rcons inE => /orP[/eqP -> //|];
    [|move/mem_behead]; exact: sound.
- case eg: (dict_get _ _) => [d|] /=; first exact: sound.
  case el: (loader k) => [d|e] /=; last exact: sound.
  by rewrite mem_rcons inE => /orP[/eqP -> //|]; exact: sound.
Qed.

Lemma lru_call_sound c k : cache_sound c -> cache_sound (lru_call c k).2.
Proof. by move=> sound it; exact: lru_call_entries. Qed.

(** On a sound cache the wrapper returns what the loader returns. *)
Lemma lru_call_transparent c k :
  cache_sound c -> (lru_call c k).1 = loader k.
Proof.
move=> sound; rewrite lru_call_result; case: ifP => // _.
by case eg: (dict_get _ _) => [d|] //; rewrite (sound _ (dict_get_mem eg)).
Qed.

Lemma new_factory_sound N requests :
  cache_sound (_loader (run_calls (DictionaryFactory N) requests)).
Proof.
apply: (run_calls_kept (P := cache_sound)) => //.
by move=> c k _; exact: lru_call_sound.
Qed.

Lemma load_langs_history self1 self2 todo :
  cache_sound (_loader self1) -> cache_sound (_loader self2) ->
  items (_data self1) = items (_data self2) ->
  (load_langs self1 todo).1 = (load_langs self2 todo).1
  /\ items (_data (load_langs self1 todo).2)
     = items (_data (load_langs self2 todo).2).
Proof.
elim: todo self1 self2 => [|l todo IH] self1 self2 s1 s2 ei //.
rewrite !load_langs_cons; case: ifP => _; first exact: IH.
rewrite !lru_call_transparent //.
case: (loader l) => [d|e] /=; last by [].
by apply: IH; rewrite /= ?ei //; exact: lru_call_sound.
Qed.

Lemma get_dictionaries_history self1 self2 langs :
  cache_sound (_loader self1) -> cache_sound (_loader self2) ->
  returned_items (get_dictionaries self1 (PyTuple langs)).1
  = returned_items (get_dictionaries self2 (PyTuple langs)).1.
Proof.
move=> s1 s2; rewrite !get_dictionaries_result.
have [-> ei] := @load_langs_history (reset_data self1) (reset_data self2)
                  langs s1 s2 (erefl _).
by case: (load_langs _ _).1 => //= _; rewrite ei.
Qed.

(** X1.  What a call returns does not depend on the calls made before nor
    on the capacity of the cache: on two factories with any histories the
    same request returns the same items or raises the same exception. *)
Theorem cache_is_transparent N1 N2 requests1 requests2 v :
  returned_items
    (get_dictionaries (run_calls (DictionaryFactory N1) requests1) v).1
  = returned_items
      (get_dictionaries (run_calls (DictionaryFactory N2) requests2) v).1.
Proof.
set self1 := run_calls _ requests1; set self2 := run_calls _ requests2.
have s1 : cache_sound (_loader self1) by exact: new_factory_sound.
have s2 : cache_sound (_loader self2) by exact: new_factory_sound.
by case: v => [|z|s|langs|langs] //;
  rewrite ?get_dictionaries_str; exact: get_dictionaries_history.
Qed.

Lemma load_langs_values self todo :
  cache_sound (_loader self) ->
  {in items (_data self), forall it,
     it.1 \in LANGLIST /\ loader it.1 = Ok it.2} ->
  {in items (_data (load_langs self todo).2), forall it,
     it.1 \in LANGLIST /\ loader it.1 = Ok it.2}.
Proof.
elim: todo self => [|l todo IH] self sound good //.
rewrite load_langs_cons; case: ifP => [_|/negbFE sup]; first exact: IH.
have := @lru_call_transparent _ l sound.
have sound' := @lru_call_sound _ l sound.
case: (lru_call _ _).1 => [d|e] //= el.
apply: IH => // it /mem_dict_set/orP[/good //|/eqP ->].
by rewrite /= -el.
Qed.

Lemma get_dictionaries_values self langs obj it :
  cache_sound (_loader self) ->
  (get_dictionaries self (PyTuple langs)).1 = Ok obj ->
  it \in items obj ->
  it.1 \in LANGLIST /\ loader it.1 = Ok it.2.
Proof.
move=> sound; rewrite get_dictionaries_result.
case er: (load_langs _ _).1 => [u|e] // [<-].
by apply: (@load_langs_values (reset_data self)).
Qed.

(** X2.  Each dictionary of a returned working set is the one the loader
    returns for its language, which is a supported one, whatever the cache
    held. *)
Theorem working_set_values N requests v obj it :
  (get_dictionaries (run_calls (DictionaryFactory N) requests) v).1 = Ok obj ->
  it \in items obj ->
  it.1 \in LANGLIST /\ loader it.1 = Ok it.2.
Proof.
set self := run_calls _ requests.
have sound : cache_sound (_loader self) by exact: new_factory_sound.
by case: v => [|z|s|langs|langs] //; rewrite ?get_dictionaries_str;
  exact: get_dictionaries_values.
Qed.

Lemma lru_call_caches c k :
  maxsize c != Some 0 -> is_ok (lru_call c k).1 ->
  k \in dict_keys (cache_entries (lru_call c k).2).
Proof.
rewrite lru_call_result lru_call_keys.
case: (maxsize c) => [[|n]|] //= _;
  case kks: (k \in dict_keys _) => /=; rewrite ?mem_rcons ?mem_head //;
  (have /eqP -> : dict_get (cache_entries c) k == None
     by rewrite dict_get_none kks);
  by move=> ->; rewrite mem_rcons mem_head.
Qed.

(** X3.  When a request for one supported language has returned and the
    cache has room (capacity not 0), the same request made again returns
    too and is served by the cache: the loader is not run (the count of
    misses stays) and a hit is counted. *)
Theorem repeated_language_is_a_hit self l :
  l \in LANGLIST -> maxsize (_loader self) != Some 0 ->
  is_ok (get_dictionaries self (PyStr l)).1 ->
  let self' := (get_dictionaries self (PyStr l)).2 in
  let r := get_dictionaries self' (PyStr l) in
  [/\ is_ok r.1,
      misses (_loader r.2) = misses (_loader self')
    & hits (_loader r.2) = (hits (_loader self')).+1].
Proof.
move=> sup room ok1 self' r.
have [el1 er1] := get_dictionaries_one package_path lzma_open
                    pickle_load self sup.
have [el2 er2] := get_dictionaries_one package_path lzma_open
                    pickle_load self' sup.
have ok_call : is_ok (lru_call (_loader self) l).1.
  by move: ok1; rewrite er1; case: (lru_call _ _).1.
have cached : l \in dict_keys (cache_entries (_loader self')).
  by rewrite /self' el1; exact: lru_call_caches.
have room' : maxsize (_loader self') != Some 0.
  by rewrite /self' el1 lru_call_maxsize.
have := lru_call_counts package_path lzma_open pickle_load
          (_loader self') l.
rewrite cached room' /= -el2 => -[-> ->]; split=> //.
rewrite /r er2 lru_call_result (negbTE room').
have : dict_get (cache_entries (_loader self')) l != None.
  by rewrite dict_get_none negbK.
by case: (dict_get _ _).
Qed.

(** X4.  With a capacity of 0 or less nothing is ever cached: after any
    calls the cache is empty, no hit was counted and every call of the
    wrapper was a miss. *)
Theorem no_capacity_no_cache (N : Z) requests :
  (N <= 0)%Z ->
  let c := _loader (run_calls (DictionaryFactory (Some N)) requests) in
  [/\ cache_entries c = [::], hits c = 0 & misses c = size (calls c)].
Proof.
move=> N0 c.
pose P c := [/\ maxsize c = Some 0, cache_entries c = [::], hits c = 0
              & misses c = size (calls c)].
suff [] : P c by [].
apply: (run_calls_kept (P := P)).
  move=> c0 k _ [em ee eh ec]; rewrite /P /lru_call em /= ee eh ec.
  by split.
rewrite /P /=; split=> //.
case: ifP => // /Z.ltb_ge N0'.
by have -> : N = 0%Z by lia.
Qed.

(** X5.  A cache without limit ([cache_max_size = None]) never drops a
    language: what is cached stays cached through any calls. *)
Theorem unbounded_cache_keeps_all self requests :
  maxsize (_loader self) = None ->
  {subset dict_keys (cache_entries (_loader self))
   <= dict_keys (cache_entries (_loader (run_calls self requests)))}.
Proof.
move=> em.
pose P c := maxsize c = None
            /\ {subset dict_keys (cache_entries (_loader self))
                <= dict_keys (cache_entries c)}.
suff [] : P (_loader (run_calls self requests)) by [].
apply: (run_calls_kept (P := P)); last by split.
move=> c k _ [emc sub]; split; first by rewrite lru_call_maxsize.
move=> x /sub xc; rewrite lru_call_keys emc.
by case: ifP => // _; rewrite mem_rcons inE xc orbT.
Qed.

(** X6.  The wrapped loader, and so the loader and the file system, is
    never called with a language outside [LANGLIST], whatever is
    requested. *)
Theorem loader_called_for_supported_only N requests :
  all (mem LANGLIST)
      (calls (_loader (run_calls (DictionaryFactory N) requests))).
Proof.
apply: (run_calls_kept (P := fun c => all (mem LANGLIST) (calls c))) => //.
by move=> c k sup called; rewrite lru_call_calls /= sup.
Qed.

Lemma load_langs_partial self todo e :
  (load_langs self todo).1 = Raise e ->
  exists pre l post,
    [/\ todo = pre ++ l :: post,
        l \in LANGLIST,
        loader l = Raise e
      & dict_keys (items (_data (load_langs self todo).2))
        = foldl add_key (dict_keys (items (_data self)))
                [seq x <- pre | x \in LANGLIST]].
Proof.
elim: todo self => [|x todo IH] self //; rewrite load_langs_cons.
case: ifP => [unsup|/negbFE sup].
  move=> /IH[pre [l [post [-> lsup bad ->]]]].
  by exists (x :: pre), l, post; split=> //=; rewrite (negbTE unsup).
case er: (lru_call _ _).1 => [d|e'] /=.
  move=> /IH[pre [l [post [-> lsup bad ->]]]].
  exists (x :: pre), l, post; split=> //=.
  by rewrite sup /= dict_keys_set.
move=> [<-]; exists [::], x, todo; split=> //.
move: er; rewrite lru_call_result.
by case: ifP => // _; case: (dict_get _ _).
Qed.

(** X7.  A call that raises leaves a partial working set behind: the
    request splits at a supported language on which the loader raised that
    exception, and the factory then holds a new [dict] with the supported
    languages met before it, neither the working set it had nor an empty
    one. *)
Theorem failed_call_leaves_prefix self langs e :
  (get_dictionaries self (PyTuple langs)).1 = Raise e ->
  let self' := (get_dictionaries self (PyTuple langs)).2 in
  exists pre l post,
    [/\ langs = pre ++ l :: post,
        l \in LANGLIST,
        loader l = Raise e,
        obj_id (_data self') = next_id self
      & dict_keys (items (_data self'))
        = dedup [seq x <- pre | x \in LANGLIST]].
Proof.
rewrite get_dictionaries_result get_dictionaries_state.
case er: (load_langs _ _).1 => [u|e'] // [<-] /=.
have [pre [l [post [el sup bad ek]]]] := load_langs_partial er.
exists pre, l, post; split=> //; first by rewrite load_langs_obj_id.
by rewrite ek /= foldl_add_key.
Qed.

End CallsOfTheWrapper.

(** ** Recency *)

Section RecentlyUsed.

Variable package_path : String.string -> String.string.
Variable lzma_open : String.string -> outcome lzma_file.
Variable pickle_load : lzma_file -> outcome pickled.
Variable LANGLIST : seq lang.

Local Notation lru_call :=
  (lru_call package_path lzma_open pickle_load).
Local Notation get_dictionaries :=
  (get_dictionaries package_path lzma_open pickle_load LANGLIST).

Implicit Types (self : factory) (c : lru_cache) (l k : lang).

(** After a call that returns, the key of the call is at the most recent
    end of a size-limited cache. *)
Lemma lru_call_last c k n :
  maxsize c = Some n.+1 -> is_ok (lru_call c k).1 ->
  exists ks0, dict_keys (cache_entries (lru_call c k).2) = rcons ks0 k.
Proof.
move=> em; rewrite lru_call_result lru_call_keys em /=.
case kks: (k \in dict_keys _); first by move=> _; eexists.
have /eqP -> : dict_get (cache_entries c) k == None.
  by rewrite dict_get_none kks.
by move=> ->; eexists.
Qed.

(** The entry at the most recent end outlives one more call when the
    capacity is at least 2. *)
Lemma lru_call_keeps_last c k2 n ks0 k :
  maxsize c = Some n.+2 -> dict_keys (cache_entries c) = rcons ks0 k ->
  k \in dict_keys (cache_entries (lru_call c k2).2).
Proof.
move=> em eks; rewrite lru_call_keys em /= eks.
have kin : k \in rcons ks0 k by rewrite mem_rcons mem_head.
case: ifP => _.
  rewrite mem_rcons inE mem_filter kin andbT.
  by case: (k == k2).
case: ifP => // _; rewrite mem_rcons inE; apply/orP; right.
case: ifP => // /negbT; rewrite -leqNgt size_rcons ltnS.
by case: ks0 {eks kin} => //= x ks0' _; rewrite mem_rcons mem_head.
Qed.

Lemma get_dictionaries_unsupported self l :
  l \notin LANGLIST -> _loader (get_dictionaries self (PyStr l)).2 = _loader self.
Proof.
move=> unsup; rewrite get_dictionaries_str get_dictionaries_state.
by rewrite load_langs_cons unsup.
Qed.

(** X8.  With a capacity of at least 2, a supported language whose request
    has just returned is still cached after the next request for one
    language, whichever it is: the entry just used is never the one
    dropped. *)
Theorem just_used_is_not_dropped self n l l2 :
  maxsize (_loader self) = Some n -> 1 < n ->
  l \in LANGLIST -> is_ok (get_dictionaries self (PyStr l)).1 ->
  let self' := (get_dictionaries self (PyStr l)).2 in
  l \in dict_keys (cache_entries (_loader (get_dictionaries self' (PyStr l2)).2)).
Proof.
move=> em n1 sup ok1; rewrite /=.
set self' := (get_dictionaries self (PyStr l)).2.
case: n em n1 => [|[|n]] // em _.
have [el1 er1] := get_dictionaries_one package_path lzma_open
                    pickle_load self sup.
have ok_call : is_ok (lru_call (_loader self) l).1.
  by move: ok1; rewrite er1; case: (lru_call _ _).1.
have [ks0 eks] := lru_call_last em ok_call.
have em' : maxsize (_loader self') = Some n.+2.
  by rewrite /self' el1 lru_call_maxsize.
have eks' : dict_keys (cache_entries (_loader self')) = rcons ks0 l.
  by rewrite /self' el1.
case: (boolP (l2 \in LANGLIST)) => [sup2|unsup2].
  have [-> _] := get_dictionaries_one package_path lzma_open
                   pickle_load self' sup2.
  exact: lru_call_keeps_last em' eks'.
by rewrite get_dictionaries_unsupported // eks' mem_rcons mem_head.
Qed.

End RecentlyUsed.

(** ** More on the sample *)

Section SampleExtras.

Variable char : eqType.
Variable isupper : char -> bool.

Local Notation token := (token char).
Implicit Types (x y : token) (ts : seq token) (t : pynum) (n : Z).

(** X10.  An empty input gives an empty sample, whatever the threshold and
    the sample size. *)
Theorem sample_tokens_nil n t : sample_tokens isupper n t [::] = Ok [::].
Proof. by rewrite sample_tokens_Counter. Qed.

(** X11.  A sample size of 0 or less gives an empty sample whenever the
    call returns. *)
Theorem sample_tokens_no_size n t ts :
  ([::] \notin ts) || ~~ num_gt_zero t -> (n <= 0)%Z ->
  sample_tokens isupper n t ts = Ok [::].
Proof.
move=> ok n0; rewrite sample_tokens_Counter // /most_common.
have -> : Z.to_nat n = 0 by lia.
by rewrite take0.
Qed.

(** X12.  Which tokens the filter removes depends on the distinct tokens
    only, not on how often each occurs: two inputs with the same distinct
    tokens in the same order of first occurrence keep the same keys. *)
Theorem filter_ignores_frequencies t ts1 ts2 :
  [::] \notin ts1 -> [::] \notin ts2 -> dedup ts1 = dedup ts2 ->
  exists c1 c2,
    [/\ drop_capitalized isupper t (Counter ts1) = Ok c1,
        drop_capitalized isupper t (Counter ts2) = Ok c2
      & keys c1 = keys c2].
Proof.
move=> ne1 ne2 e.
pose p ts x := ~~ (filter_applies isupper t ts && head_upper isupper x).
exists [seq it <- Counter ts1 | p ts1 it.1], [seq it <- Counter ts2 | p ts2 it.1].
split; try by apply: drop_capitalized_Counter; rewrite ?ne1 ?ne2.
rewrite !keys_filter_Counter e; apply: eq_filter => x.
by rewrite /p /filter_applies /few_capitalized e.
Qed.

Lemma ranks_before_count ts x y :
  ranks_before ts x y -> count_mem y ts <= count_mem x ts.
Proof.
by case/orP=> [/ltnW //|/andP[/eqP -> _]].
Qed.

(** X13.  When the call returns, the sample size is positive and some token
    survives the filter, the sample is not empty and its first token is a
    most frequent one among the surviving tokens. *)
Theorem first_is_most_frequent n t ts :
  ([::] \notin ts) || ~~ num_gt_zero t -> (0 < n)%Z ->
  surviving isupper t ts != [::] ->
  exists x out,
    sample_tokens isupper n t ts = Ok (x :: out)
    /\ forall y, y \in surviving isupper t ts ->
                 count_mem y ts <= count_mem x ts.
Proof.
move=> ok n0 some; rewrite sample_tokens_Counter //.
set p := fun x => ~~ (filter_applies isupper t ts && head_upper isupper x).
have /= := most_common_ranked ts p n.
move: [seq it.1 | it <- most_common n _] => sample [_ so _ rk top].
case: sample so rk top => [|x out] so rk top.
  have pos : 0 < Z.to_nat n by apply/ltP; lia.
  have : 0 < minn (Z.to_nat n) (size [seq x <- dedup ts | p x]).
    by rewrite leq_min pos lt0n size_eq0.
  by rewrite -so.
exists x, out; split=> // y ykept.
case: (boolP (y \in x :: out)) => [|yout]; last first.
  by apply/ranks_before_count/top => //; exact: mem_head.
rewrite inE => /orP[/eqP -> //|yout].
by move: rk => /= /andP[/allP rk _]; exact/ranks_before_count/rk.
Qed.

(** X14.  When the call returns and the sample size is at least the number
    of distinct tokens, the sample is the surviving tokens, all of them:
    in particular every token that does not begin with an uppercase
    character is in it. *)
Theorem large_sample_is_complete n t ts :
  ([::] \notin ts) || ~~ num_gt_zero t ->
  (Z.of_nat (size (dedup ts)) <= n)%Z ->
  exists out,
    [/\ sample_tokens isupper n t ts = Ok out,
        perm_eq out (surviving isupper t ts)
      & forall x, x \in ts -> ~~ head_upper isupper x -> x \in out].
Proof.
move=> ok big; rewrite sample_tokens_Counter //.
set p := fun x => ~~ (filter_applies isupper t ts && head_upper isupper x).
have perm := keys_sorted_items ts p.
have all_of_them : most_common n [seq it <- Counter ts | p it.1]
                   = sorted_items [seq it <- Counter ts | p it.1].
  rewrite /most_common take_oversize // /sorted_items size_sort.
  rewrite filter_Counter size_map.
  apply: (@leq_trans (size (dedup ts))).
    by rewrite size_filter count_size.
  by apply/leP; lia.
eexists; split; first by [].
  by rewrite all_of_them.
move=> x xts low; rewrite all_of_them (perm_mem perm) mem_filter mem_dedup xts.
by rewrite /p (negbTE low) andbF.
Qed.

(** X15.  Asking for a smaller sample gives a prefix of the larger one. *)
Theorem smaller_sample_is_prefix n1 n2 t ts :
  ([::] \notin ts) || ~~ num_gt_zero t -> (n1 <= n2)%Z ->
  exists out2,
    sample_tokens isupper n2 t ts = Ok out2
    /\ sample_tokens isupper n1 t ts = Ok (take (Z.to_nat n1) out2).
Proof.
move=> ok le; rewrite !sample_tokens_Counter //.
eexists; split; first by [].
rewrite /most_common -map_take take_takel //.
by apply/leP; lia.
Qed.

(** X16.  A relaxed sampler built with its default arguments never raises
    and never filters: its sample is made of distinct tokens of the
    tokenizer's output, the 1000 highest ranked of them in rank order (each
    ranks before every token left out), and all the distinct tokens when
    there are no more than 1000. *)
Theorem relaxed_sampler_total (tokenizer : Tokenizer char) (txt : text char) :
  let tokens := split_text tokenizer txt in
  exists out,
    [/\ sample_text (relaxed_sampler isupper tokenizer) txt = Ok out,
        uniq out /\ {subset out <= tokens},
        size out = minn 1000 (size (dedup tokens)),
        pairwise (ranks_before tokens) out
        /\ (forall x y, x \in out -> y \in tokens -> y \notin out ->
                        ranks_before tokens x y)
      & size (dedup tokens) <= 1000 -> perm_eq out (dedup tokens)].
Proof.
move=> tokens.
have -> : sample_text (relaxed_sampler isupper tokenizer) txt
          = sample_tokens isupper relaxed_default_sample_size
              relaxed_default_capitalized_threshold tokens by [].
rewrite sample_tokens_Counter ?orbT //.
pose p x := ~~ (filter_applies isupper relaxed_default_capitalized_threshold
                                  tokens && head_upper isupper x).
have ep : [seq x <- dedup tokens | p x] = dedup tokens.
  by apply/all_filterP/allP.
have [uo so sub rk top] :=
  most_common_ranked tokens p relaxed_default_sample_size.
have e1000 : Z.to_nat relaxed_default_sample_size = 1000 by [].
eexists; split; first by [].
- split=> // x /sub; rewrite ep mem_dedup; exact.
- by rewrite so ep e1000.
- split=> // x y xo yt yo; apply: top => //.
  by rewrite ep mem_dedup.
move=> small.
have perm := keys_sorted_items tokens p.
have fits : size (sorted_items [seq it <- Counter tokens | p it.1])
            <= Z.to_nat relaxed_default_sample_size.
  by rewrite size_sort filter_Counter size_map ep e1000.
by rewrite /most_common (take_oversize fits) -ep.
Qed.

End SampleExtras.

(** ** The additional statements at concrete inputs *)

(** X2 at the working set returned for "en" after a request for "de". *)
Lemma working_set_values_witness :
  "en"%string \in example_LANGLIST
  /\ _load_dictionary_from_disk example_package_path example_lzma_open
       example_pickle_load "en"%string
     = Ok [:: ("houses", "house")%string].
Proof.
apply: (@working_set_values example_package_path example_lzma_open
          example_pickle_load example_LANGLIST default_cache_max_size
          [:: PyStr "de"%string] (PyStr "en"%string)
          (DictObj 2 [:: ("en", [:: ("houses", "house")])%string])
          ("en", [:: ("houses", "house")])%string).
- by [].
- by [].
Defined.

(** X3 at two requests for "en" on a new factory. *)
Lemma repeated_language_is_a_hit_witness :
  misses (_loader
    (example_get_dictionaries
       (example_get_dictionaries (DictionaryFactory default_cache_max_size)
          (PyStr "en"%string)).2
       (PyStr "en"%string)).2)
  = 1.
Proof.
have [] := @repeated_language_is_a_hit example_package_path
             example_lzma_open example_pickle_load example_LANGLIST
             (DictionaryFactory default_cache_max_size) "en"%string.
- by [].
- by [].
- by [].
by move=> _ -> _.
Defined.

(** X4 at capacity 0 after three requests. *)
Lemma no_capacity_no_cache_witness :
  cache_entries (_loader
    (run_calls example_package_path example_lzma_open
       example_pickle_load example_LANGLIST (DictionaryFactory (Some 0%Z))
       [:: PyStr "en"; PyStr "en"; PyStr "de"]%string))
  = [::].
Proof.
have N0 : (0 <= 0)%Z by lia.
by have [] := @no_capacity_no_cache example_package_path
                example_lzma_open example_pickle_load example_LANGLIST
                0%Z [:: PyStr "en"; PyStr "en"; PyStr "de"]%string N0.
Defined.

(** X5 at a factory without limit that holds "en". *)
Lemma unbounded_cache_keeps_all_witness :
  "en"%string \in dict_keys (cache_entries (_loader
    (run_calls example_package_path example_lzma_open
       example_pickle_load example_LANGLIST
       (example_get_dictionaries (DictionaryFactory None)
          (PyStr "en"%string)).2
       [:: PyStr "de"; PyStr "it"]%string))).
Proof.
apply: (@unbounded_cache_keeps_all example_package_path
          example_lzma_open example_pickle_load example_LANGLIST
          (example_get_dictionaries (DictionaryFactory None)
             (PyStr "en"%string)).2).
- by [].
- by [].
Defined.

(** X7 at a request whose second language has no data file. *)
Lemma failed_call_leaves_prefix_witness :
  exists pre l post,
    [:: "de"; "fr"; "en"]%string = pre ++ l :: post
    /\ dict_keys (items (_data
         (example_get_dictionaries (DictionaryFactory default_cache_max_size)
            (PyTuple [:: "de"; "fr"; "en"]%string)).2))
       = dedup [seq x <- pre | x \in example_LANGLIST].
Proof.
have [] := @failed_call_leaves_prefix example_package_path
             example_lzma_open example_pickle_load example_LANGLIST
             (DictionaryFactory default_cache_max_size)
             [:: "de"; "fr"; "en"]%string FileNotFoundError.
  by [].
move=> pre [l [post [el _ _ _ ek]]].
by exists pre, l, post.
Defined.

(** X8 at capacity 2: "en" survives a request for "it" on a full cache. *)
Lemma just_used_is_not_dropped_witness :
  "en"%string \in dict_keys (cache_entries (_loader
    (example_get_dictionaries
       (example_get_dictionaries
          (example_get_dictionaries (DictionaryFactory (Some 2%Z))
             (PyStr "de"%string)).2
          (PyStr "en"%string)).2
       (PyStr "it"%string)).2)).
Proof.
apply: (@just_used_is_not_dropped example_package_path
          example_lzma_open example_pickle_load example_LANGLIST
          (example_get_dictionaries (DictionaryFactory (Some 2%Z))
             (PyStr "de"%string)).2
          2 "en"%string "it"%string).
- by [].
- by [].
- by [].
- by [].
Defined.

(** X11 at a negative sample size. *)
Lemma sample_tokens_no_size_witness :
  sample_tokens ascii_isupper (-3) (Float float_0_8)
    [:: tok "Apple"; tok "cat"] = Ok [::].
Proof.
apply: sample_tokens_no_size.
- by [].
- by [].
Defined.

(** X12 at two inputs that differ in frequencies only. *)
Lemma filter_ignores_frequencies_witness :
  exists c1 c2,
    drop_capitalized ascii_isupper (Float float_0_8)
      (Counter [:: tok "Apple"; tok "cat"; tok "dog"]) = Ok c1
    /\ drop_capitalized ascii_isupper (Float float_0_8)
         (Counter [:: tok "Apple"; tok "Apple"; tok "cat"; tok "dog";
                      tok "Apple"]) = Ok c2
    /\ keys c1 = keys c2.
Proof.
have [] := @filter_ignores_frequencies _ ascii_isupper (Float float_0_8)
             [:: tok "Apple"; tok "cat"; tok "dog"]
             [:: tok "Apple"; tok "Apple"; tok "cat"; tok "dog"; tok "Apple"].
- by [].
- by [].
- by [].
by move=> c1 [c2 [e1 e2 ek]]; exists c1, c2.
Defined.

(** X13 at an input whose most frequent token comes second. *)
Lemma first_is_most_frequent_witness :
  exists x out,
    sample_tokens ascii_isupper 2 (Int 0)
      [:: tok "cat"; tok "dog"; tok "dog"] = Ok (x :: out).
Proof.
have [] := @first_is_most_frequent _ ascii_isupper 2%Z (Int 0)
             [:: tok "cat"; tok "dog"; tok "dog"].
- by [].
- by [].
- by [].
by move=> x [out [e _]]; exists x, out.
Defined.

(** X14 at a sample size larger than the input. *)
Lemma large_sample_is_complete_witness :
  exists out,
    sample_tokens ascii_isupper 10 (Float float_0_8)
      [:: tok "Apple"; tok "cat"; tok "dog"] = Ok out
    /\ tok "dog" \in out.
Proof.
have [] := @large_sample_is_complete _ ascii_isupper 10%Z (Float float_0_8)
             [:: tok "Apple"; tok "cat"; tok "dog"].
- by [].
- by [].
move=> out [e _ low]; exists out; split=> //.
by apply: low.
Defined.

(** X15 at sample sizes 1 and 2. *)
Lemma smaller_sample_is_prefix_witness :
  exists out2,
    sample_tokens ascii_isupper 2 (Int 0)
      [:: tok "cat"; tok "dog"; tok "dog"] = Ok out2
    /\ sample_tokens ascii_isupper 1 (Int 0)
         [:: tok "cat"; tok "dog"; tok "dog"] = Ok (take 1 out2).
Proof.
apply: (@smaller_sample_is_prefix _ ascii_isupper 1%Z 2%Z (Int 0)
          [:: tok "cat"; tok "dog"; tok "dog"]).
- by [].
- by [].
Defined.
